(** * paginator: sanitised page/per-page values, offset/limit and the
      sliding window of page numbers (knadh/paginator, paginator.go)

    The development embeds [paginator.go] shallowly:
    - Go's [int] is a 64-bit two's complement integer, carried as a [Z]
      with the wrap-around of every arithmetic operation written out;
    - [float64] is IEEE-754 binary64, carried as [spec_float] with the
      operations of the standard library's [SpecFloat] (round to nearest,
      ties to even);
    - [url.Values] is a nilable [map[string][]string], carried as an
      optional [gmap string (list string)];
    - a method with a pointer receiver becomes a function returning the
      final contents of the receiver, paired with the way the call ended
      where the call can panic or fail to return. *)

From Stdlib Require Import ZArith Lia SpecFloat Ascii String.
From stdpp Require Import base decidable option list gmap strings pretty sorting.

Open Scope Z_scope.

(** ** Go's [int] *)

Definition min_int : Z := - 2 ^ 63.
Definition max_int : Z := 2 ^ 63 - 1.

Definition in_int (z : Z) : Prop := min_int ≤ z ≤ max_int.

(** Two's complement wrap-around of a mathematical integer. *)
Definition wrap (z : Z) : Z := (z + 2 ^ 63) mod 2 ^ 64 - 2 ^ 63.

Definition int_add (a b : Z) : Z := wrap (a + b).
Definition int_sub (a b : Z) : Z := wrap (a - b).
Definition int_mul (a b : Z) : Z := wrap (a * b).
(** Go's [/] on integers truncates toward zero. *)
Definition int_div (a b : Z) : Z := wrap (Z.quot a b).

(** ** Go's [float64] and the conversions used by [generateNumbers] *)

Definition prec : Z := 53.
Definition emax : Z := 1024.

(** [float64(n)] for an [int] n: the nearest binary64 value. *)
Definition float64_of_int (n : Z) : spec_float :=
  binary_normalize prec emax n 0 false.

(** [x / y] on [float64]. *)
Definition float64_div (x y : spec_float) : spec_float := SFdiv prec emax x y.

Module math.
(** [math.Ceil(x)]: the least integer value greater than or equal to [x];
    ±0, ±Inf and NaN are returned as they are. *)
Definition Ceil (x : spec_float) : spec_float :=
  match x with
  | S754_finite s m e =>
      if decide (0 ≤ e) then x
      else
        let ip := Z.shiftl (Zpos m) e in
        let fract := bool_decide (Z.shiftl ip (- e) ≠ Zpos m) in
        if s then binary_normalize prec emax (- ip) 0 true
        else binary_normalize prec emax (if fract then ip + 1 else ip) 0 false
  | _ => x
  end.
End math.

(** The integer a finite float truncates to (toward zero). *)
Definition float64_trunc (s : bool) (m : positive) (e : Z) : Z :=
  let mag := Z.shiftl (Zpos m) e in
  if s then - mag else mag.

(** ** Options, paginator and page set *)

Abbreviation Values := (option (gmap string (list string))).

Record Opt := {
  DefaultPerPage : Z;
  MaxPerPage : Z;
  NumPageNums : Z;
  PerPageParam : string;
  PageParam : string;
  AllowAll : bool;
  AllowAllParam : string
}.

Record Paginator := { o : Opt }.

(** The field [pg] points to the paginator that built the set, which is
    never written to after [New]; it is carried by value. *)

Record Set_ := {
  Page : Z;
  PerPage : Z;
  TotalPages : Z;
  Total : Z;
  Params : Values;
  Offset : Z;
  Limit : Z;
  PinFirstPage : bool;
  PinLastPage : bool;
  Pages : list Z;
  pg : Paginator
}.

Definition set_Page (v : Z) (s : Set_) : Set_ :=
  {| Page := v; PerPage := PerPage s; TotalPages := TotalPages s;
     Total := Total s; Params := Params s; Offset := Offset s;
     Limit := Limit s; PinFirstPage := PinFirstPage s;
     PinLastPage := PinLastPage s; Pages := Pages s; pg := pg s |}.

Definition set_TotalPages (v : Z) (s : Set_) : Set_ :=
  {| Page := Page s; PerPage := PerPage s; TotalPages := v;
     Total := Total s; Params := Params s; Offset := Offset s;
     Limit := Limit s; PinFirstPage := PinFirstPage s;
     PinLastPage := PinLastPage s; Pages := Pages s; pg := pg s |}.

Definition set_Total (v : Z) (s : Set_) : Set_ :=
  {| Page := Page s; PerPage := PerPage s; TotalPages := TotalPages s;
     Total := v; Params := Params s; Offset := Offset s;
     Limit := Limit s; PinFirstPage := PinFirstPage s;
     PinLastPage := PinLastPage s; Pages := Pages s; pg := pg s |}.

Definition set_Params (v : Values) (s : Set_) : Set_ :=
  {| Page := Page s; PerPage := PerPage s; TotalPages := TotalPages s;
     Total := Total s; Params := v; Offset := Offset s;
     Limit := Limit s; PinFirstPage := PinFirstPage s;
     PinLastPage := PinLastPage s; Pages := Pages s; pg := pg s |}.

Definition set_Offset (v : Z) (s : Set_) : Set_ :=
  {| Page := Page s; PerPage := PerPage s; TotalPages := TotalPages s;
     Total := Total s; Params := Params s; Offset := v;
     Limit := Limit s; PinFirstPage := PinFirstPage s;
     PinLastPage := PinLastPage s; Pages := Pages s; pg := pg s |}.

Definition set_PinFirstPage (v : bool) (s : Set_) : Set_ :=
  {| Page := Page s; PerPage := PerPage s; TotalPages := TotalPages s;
     Total := Total s; Params := Params s; Offset := Offset s;
     Limit := Limit s; PinFirstPage := v;
     PinLastPage := PinLastPage s; Pages := Pages s; pg := pg s |}.

Definition set_PinLastPage (v : bool) (s : Set_) : Set_ :=
  {| Page := Page s; PerPage := PerPage s; TotalPages := TotalPages s;
     Total := Total s; Params := Params s; Offset := Offset s;
     Limit := Limit s; PinFirstPage := PinFirstPage s;
     PinLastPage := v; Pages := Pages s; pg := pg s |}.

Definition set_Pages (v : list Z) (s : Set_) : Set_ :=
  {| Page := Page s; PerPage := PerPage s; TotalPages := TotalPages s;
     Total := Total s; Params := Params s; Offset := Offset s;
     Limit := Limit s; PinFirstPage := PinFirstPage s;
     PinLastPage := PinLastPage s; Pages := v; pg := pg s |}.

(** [Default()] *)
Definition Default : Opt :=
  {| DefaultPerPage := 10; MaxPerPage := 50; NumPageNums := 10;
     PerPageParam := "per_page"; PageParam := "page";
     AllowAll := false; AllowAllParam := "all" |}.

(** [New(o Opt) *Paginator] *)
Definition New (opt : Opt) : Paginator :=
  {| o := if decide (AllowAllParam opt = "") then
            {| DefaultPerPage := DefaultPerPage opt;
               MaxPerPage := MaxPerPage opt;
               NumPageNums := NumPageNums opt;
               PerPageParam := PerPageParam opt;
               PageParam := PageParam opt;
               AllowAll := AllowAll opt;
               AllowAllParam := "all" |}
          else opt |}.

(** The sanitised per-page value of [(p *Paginator) New]. *)
Definition sanitize_perPage (p : Paginator) (perPage : Z) : Z :=
  if decide (perPage < 0 ∧ AllowAll (o p) = true) then 0
  else if decide (perPage < 1) then DefaultPerPage (o p)
  else if decide (AllowAll (o p) = false ∧ perPage > MaxPerPage (o p))
       then MaxPerPage (o p)
  else perPage.

(** The sanitised page of [(p *Paginator) New]. *)
Definition sanitize_page (page : Z) : Z :=
  if decide (page < 1) then 1 else page.

(** [(p *Paginator) New(page, perPage int) Set] *)
Definition Paginator_New (p : Paginator) (page perPage : Z) : Set_ :=
  let perPage := sanitize_perPage p perPage in
  let page := sanitize_page page in
  {| Page := page; PerPage := perPage; TotalPages := 0; Total := 0;
     Params := None; Offset := int_mul (int_sub page 1) perPage;
     Limit := perPage; PinFirstPage := false; PinLastPage := false;
     Pages := []; pg := p |}.

(** [(s *Set) SetParams(p url.Values)] *)
Definition SetParams (s : Set_) (p : Values) : Set_ := set_Params p s.

(** ** Go's [strconv.Atoi] *)

Module strconv.

Inductive Err := ErrSyntax | ErrRange.

#[global] Instance Err_eq_dec : EqDecision Err.
Proof. solve_decision. Defined.

Definition byte (c : ascii) : Z := Z.of_N (N_of_ascii c).

Definition maxUint64 : Z := 2 ^ 64 - 1.

(** The digit loop of [ParseUint(s, 10, 64)] over the bytes of [s], from
    the accumulator [n]: a byte that is no decimal digit is a syntax
    error (value 0); as soon as the accumulated value leaves [uint64] the
    loop stops with a range error (value [maxUint64]), whatever follows. *)
Fixpoint ParseUint_loop (s : string) (n : Z) : Z * option Err :=
  match s with
  | EmptyString => (n, None)
  | String c s' =>
      if decide (48 ≤ byte c ≤ 57) then
        let d := byte c - 48 in
        if decide (n >= maxUint64 / 10 + 1) then (maxUint64, Some ErrRange)
        else
          let n := n * 10 in
          let n1 := (n + d) mod 2 ^ 64 in
          if decide (n1 < n ∨ n1 > maxUint64) then (maxUint64, Some ErrRange)
          else ParseUint_loop s' n1
      else (0, Some ErrSyntax)
  end.

Definition ParseUint (s : string) : Z * option Err :=
  if decide (s = EmptyString) then (0, Some ErrSyntax) else ParseUint_loop s 0.

(** [ParseInt(s, 10, 0)] *)
Definition ParseInt (s : string) : Z * option Err :=
  match s with
  | EmptyString => (0, Some ErrSyntax)
  | String c s' =>
      let neg := bool_decide (c = "-"%char) in
      let s1 := if decide (c = "+"%char ∨ c = "-"%char) then s' else s in
      let '(un, err) := ParseUint s1 in
      if decide (err = Some ErrSyntax) then (0, err)
      else if decide (neg = false ∧ un >= 2 ^ 63) then (2 ^ 63 - 1, Some ErrRange)
      else if decide (neg = true ∧ un > 2 ^ 63) then (- 2 ^ 63, Some ErrRange)
      else
        let n := wrap un in
        (if neg then wrap (- n) else n, None)
  end.

(** The loop of the fast path of [Atoi]: [None] at a byte that is no
    decimal digit. *)
Fixpoint Atoi_loop (s : string) (n : Z) : option Z :=
  match s with
  | EmptyString => Some n
  | String c s' =>
      let ch := (byte c - 48) mod 256 in
      if decide (ch > 9) then None
      else Atoi_loop s' (int_add (int_mul n 10) ch)
  end.

(** [Atoi(s)]: the value and the error. *)
Definition Atoi (s : string) : Z * option Err :=
  let sLen := Z.of_nat (String.length s) in
  if decide (0 < sLen ∧ sLen < 19) then
    match s with
    | EmptyString => (0, Some ErrSyntax)
    | String c s' =>
        let signed := bool_decide (c = "-"%char ∨ c = "+"%char) in
        let s1 := if signed then s' else s in
        if decide (signed = true ∧ Z.of_nat (String.length s1) < 1)
        then (0, Some ErrSyntax)
        else
          match Atoi_loop s1 0 with
          | None => (0, Some ErrSyntax)
          | Some n => (if decide (c = "-"%char) then int_sub 0 n else n, None)
          end
    end
  else ParseInt s.

End strconv.

(** ** Go's [url.Values] and [fmt] *)

Module url.

(** [v.Get(key)]: the first value of [key], the empty string without one
    (also on a nil map). *)
Definition Get (v : Values) (key : string) : string :=
  match v with
  | None => EmptyString
  | Some m =>
      match m !! key with
      | Some (x :: _) => x
      | _ => EmptyString
      end
  end.

(** [v.Set(key, value)] on a map that is not nil. *)
Definition Set_ (m : gmap string (list string)) (key value : string)
  : gmap string (list string) :=
  <[key := [value]]> m.

Definition upperhex (n : Z) : ascii :=
  ascii_of_N (Z.to_N (if decide (n < 10) then 48 + n else 55 + n)).

(** [shouldEscape(c, encodeQueryComponent)] *)
Definition shouldEscape (c : ascii) : bool :=
  let b := strconv.byte c in
  if decide (97 ≤ b ≤ 122 ∨ 65 ≤ b ≤ 90 ∨ 48 ≤ b ≤ 57) then false
  else if decide (c = "-"%char ∨ c = "_"%char ∨ c = "."%char ∨ c = "~"%char)
       then false
  else true.

(** [QueryEscape(s)] *)
Fixpoint QueryEscape (s : string) : string :=
  match s with
  | EmptyString => EmptyString
  | String c s' =>
      if decide (c = " "%char) then String "+"%char (QueryEscape s')
      else if shouldEscape c then
        String "%"%char
          (String (upperhex (Z.shiftr (strconv.byte c) 4))
             (String (upperhex (Z.land (strconv.byte c) 15)) (QueryEscape s')))
      else String c (QueryEscape s')
  end.

(** [sort.Strings] of the keys of the map. *)
Definition sorted_keys (m : gmap string (list string)) : list string :=
  merge_sort (λ a b : string, String.leb a b) (map_to_list m).*1.

(** The writes of [Encode] for one key, onto the buffer [buf]. *)
Definition Encode_key (k : string) (vs : list string) (buf : string) : string :=
  foldl (λ buf v,
           (if decide (buf = EmptyString) then buf else buf +:+ "&")
             +:+ QueryEscape k +:+ "=" +:+ QueryEscape v)
        buf vs.

(** [v.Encode()] on a map that is not nil. *)
Definition Encode (m : gmap string (list string)) : string :=
  foldl (λ buf k, Encode_key k (default [] (m !! k)) buf)
        EmptyString (sorted_keys m).

End url.

Module fmt.
(** [fmt.Sprintf(%d, n)]: the decimal digits of [n], after a minus sign
    when [n] is negative. *)
Definition Sprintf_d (n : Z) : string := pretty n.
End fmt.

(** [(p *Paginator) NewFromURL(q url.Values) Set] *)
Definition NewFromURL (p : Paginator) (q : Values) : Set_ :=
  let perPage := (strconv.Atoi (url.Get q (PerPageParam (o p)))).1 in
  let page := (strconv.Atoi (url.Get q (PageParam (o p)))).1 in
  let perPage :=
    if decide (url.Get q (PerPageParam (o p)) = AllowAllParam (o p))
    then -1 else perPage in
  Paginator_New p page perPage.

(** *** Numeric text

    What the specification calls a decimal integer: an optional sign and
    then one or more decimal digits. [leading_value s n] is the number the
    leading run of digits of [s] denotes, continuing from [n]. *)
Definition is_digit (c : ascii) : bool :=
  bool_decide (48 ≤ strconv.byte c ≤ 57).

Fixpoint all_digits (s : string) : bool :=
  match s with
  | EmptyString => true
  | String c s' => is_digit c && all_digits s'
  end.

Definition is_sign (c : ascii) : bool :=
  bool_decide (c = "+"%char ∨ c = "-"%char).

Definition unsigned_part (s : string) : string :=
  match s with
  | String c s' => if is_sign c then s' else s
  | EmptyString => s
  end.

Definition numeric (s : string) : bool :=
  bool_decide (unsigned_part s ≠ EmptyString) && all_digits (unsigned_part s).

Fixpoint leading_value (s : string) (n : Z) : Z :=
  match s with
  | EmptyString => n
  | String c s' =>
      if is_digit c then leading_value s' (n * 10 + (strconv.byte c - 48))
      else n
  end.

(** A value of the request that is no decimal integer and whose leading
    digits stay within [uint64]; and a key the request has no value for. *)
Definition unparsable (s : string) : Prop :=
  numeric s = false ∧ leading_value (unsigned_part s) 0 ≤ strconv.maxUint64.

Definition missing (q : Values) (k : string) : Prop :=
  match q with
  | None => True
  | Some m => m !! k = None ∨ m !! k = Some []
  end.

(** The bound a range error of [Atoi] comes with: the least [int] after
    a minus sign, the greatest otherwise. *)
Definition range_bound (s : string) : Z :=
  match s with
  | String c _ => if decide (c = "-"%char) then min_int else max_int
  | EmptyString => max_int
  end.

(** ** Rendering *)

(** The double quote of the markup. *)
Definition dq : string := String "034"%char EmptyString.

(** The buffer and the query parameters while [HTML] runs. *)
Definition render : Type := string * gmap string (list string).

(** The block of [HTML] under [if s.PinFirstPage]. *)
Definition write_first (s : Set_) (uri : string) (st : render) : render :=
  let '(b, qp) := st in
  let qp := url.Set_ qp (PageParam (o (pg s))) "1" in
  let u := uri +:+ "?" +:+ url.Encode qp in
  let b := b +:+ ("<a class=" +:+ dq +:+ "pg-page-first" +:+ dq
                    +:+ " href=" +:+ dq +:+ u +:+ dq +:+ ">") in
  let b := b +:+ "1" in
  let b := b +:+ "</a> " in
  let b := b +:+ ("<span class=" +:+ dq +:+ "pg-page-ellipsis-first" +:+ dq
                    +:+ ">...</span> ") in
  (b, qp).

(** The body of the loop of [HTML] over [s.Pages], at the page [p]. *)
Definition write_page (s : Set_) (uri : string) (st : render) (p : Z) : render :=
  let '(b, qp) := st in
  let c := if decide (Page s = p) then " pg-selected" else EmptyString in
  let qp := url.Set_ qp (PageParam (o (pg s))) (fmt.Sprintf_d p) in
  let u := uri +:+ "?" +:+ url.Encode qp in
  let b := b +:+ ("<a class=" +:+ dq +:+ "pg-page" +:+ c +:+ dq
                    +:+ " href=" +:+ dq +:+ u +:+ dq +:+ ">") in
  let b := b +:+ fmt.Sprintf_d p in
  let b := b +:+ "</a> " in
  (b, qp).

(** The block of [HTML] under [if s.PinLastPage]. *)
Definition write_last (s : Set_) (uri : string) (st : render) : render :=
  let '(b, qp) := st in
  let qp := url.Set_ qp (PageParam (o (pg s))) (fmt.Sprintf_d (TotalPages s)) in
  let u := uri +:+ "?" +:+ url.Encode qp in
  let b := b +:+ ("<span class=" +:+ dq +:+ "pg-page-ellipsis-last" +:+ dq
                    +:+ ">...</span> ") in
  let b := b +:+ ("<a class=" +:+ dq +:+ "pg-page-last" +:+ dq
                    +:+ " href=" +:+ dq +:+ u +:+ dq +:+ ">") in
  let b := b +:+ fmt.Sprintf_d (TotalPages s) in
  let b := b +:+ "</a> " in
  (b, qp).

(** [(s *Set) HTML(uri string, qp url.Values) string], with the final
    contents of the map it writes to. *)
Definition HTML_run (s : Set_) (uri : string) (qp : Values) : render :=
  let qp := default ∅ qp in
  let st : render := (EmptyString, qp) in
  let st := if PinFirstPage s then write_first s uri st else st in
  let st := foldl (write_page s uri) st (Pages s) in
  let st := if PinLastPage s then write_last s uri st else st in
  st.

Definition HTML (s : Set_) (uri : string) (qp : Values) : string :=
  (HTML_run s uri qp).1.

(** *** The markup as the specification words it

    An anchor with the classes [cls] to the page [p], an ellipsis marker
    with the class [cls], and their concatenation in the order first page,
    window, last page. [selected] is the class the anchor of the current
    page carries after [pg-page]. *)
Definition page_url (s : Set_) (uri : string) (qp : Values) (p : string) : string :=
  uri +:+ "?" +:+
  url.Encode (url.Set_ (default ∅ qp) (PageParam (o (pg s))) p).

Definition anchor (cls href text : string) : string :=
  "<a class=" +:+ dq +:+ cls +:+ dq +:+ " href=" +:+ dq +:+ href +:+ dq
    +:+ ">" +:+ text +:+ "</a> ".

Definition ellipsis (cls : string) : string :=
  "<span class=" +:+ dq +:+ cls +:+ dq +:+ ">...</span> ".

Definition markup (selected : string) (s : Set_) (uri : string) (qp : Values)
  : string :=
  (if PinFirstPage s
   then anchor "pg-page-first" (page_url s uri qp "1") "1"
          +:+ ellipsis "pg-page-ellipsis-first"
   else EmptyString)
  +:+ foldr String.append EmptyString
        (map (λ p : Z,
                anchor (if decide (Page s = p)
                        then "pg-page " +:+ selected else "pg-page")
                       (page_url s uri qp (fmt.Sprintf_d p)) (fmt.Sprintf_d p))
             (Pages s))
  +:+ (if PinLastPage s
       then ellipsis "pg-page-ellipsis-last"
              +:+ anchor "pg-page-last"
                    (page_url s uri qp (fmt.Sprintf_d (TotalPages s)))
                    (fmt.Sprintf_d (TotalPages s))
       else EmptyString).

(** The map [HTML] writes to differs from the caller's at the page
    parameter only, so setting that parameter again forgets the difference. *)
Definition same_but (k : string) (q0 qp : gmap string (list string)) : Prop :=
  ∀ v : string, url.Set_ qp k v = url.Set_ q0 k v.

(** ** The window of page numbers *)

(** How a call of [generateNumbers] (and of [SetTotal]) ends: it returns,
    it panics in [make] on a negative capacity, or its loop never exits.
    The limits of the allocator are left out: [make] and [append] get the
    memory they ask for. *)
Inductive exit := Returns | Panics | Diverges.

(** [for i := first; i <= last; i++ { s.Pages = append(s.Pages, i) }],
    one iteration per unit of fuel; [None] when the fuel runs out. *)
Fixpoint pages_loop (fuel : nat) (i last : Z) (acc : list Z) : option (list Z) :=
  match fuel with
  | O => None
  | S fuel' =>
      if decide (i ≤ last)
      then pages_loop fuel' (int_add i 1) last (acc ++ [i])
      else Some acc
  end.

(** How the call ends and what it leaves in [Pages], from the window
    bounds and the previous contents of [Pages]. *)
Definition pages_outcome (first last : Z) (old : list Z) : exit * list Z :=
  if decide (int_add (int_sub last first) 1 < 0) then (Panics, old)
  else
    match pages_loop (S (Z.to_nat (int_add (int_sub last first) 1))) first last [] with
    | Some l => (Returns, l)
    | None => (Diverges, [])
    end.

(** The page [generateNumbers] works with once it has clamped it. *)
Definition clamp_page (page numPages : Z) : Z :=
  if decide (page > numPages) then numPages else page.

Section Platform.

(** Go leaves the result of converting a float that an [int] cannot
    represent (too large, infinite, NaN) to the implementation: amd64
    yields the least [int], arm64 saturates. [indefinite] is that choice. *)
Variable indefinite : spec_float → Z.

(** [int(x)] for a [float64] x. *)
Definition int_of_float64 (x : spec_float) : Z :=
  match x with
  | S754_zero _ => 0
  | S754_finite s m e =>
      let v := float64_trunc s m e in
      if decide (in_int v) then v else wrap (indefinite x)
  | _ => wrap (indefinite x)
  end.

(** [int(math.Ceil(float64(total) / float64(perPage)))] *)
Definition numPages_of (total perPage : Z) : Z :=
  int_of_float64
    (math.Ceil (float64_div (float64_of_int total) (float64_of_int perPage))).

(** The window bounds [first] and [last] of [generateNumbers], from the
    clamped page, the number of pages and [NumPageNums]. *)
Definition window (page numPages num : Z) : Z * Z :=
  let half := int_div num 2 in
  let first := int_sub page half in
  let last := int_add page half in
  let first := if decide (first < 1) then 1 else first in
  let last := if decide (last > numPages) then numPages else last in
  if decide (numPages > num) then
    let last :=
      if decide (last < numPages ∧ page ≤ half)
      then int_sub (int_add first num) 1 else last in
    let first :=
      if decide (page > int_sub numPages half)
      then int_sub last num else first in
    (first, last)
  else (first, last).

(** [(s *Set) generateNumbers()] *)
Definition generateNumbers (s : Set_) : exit * Set_ :=
  if decide (Total s ≤ PerPage s) then
    (Returns, set_Page 1 (set_Offset 0 s))
  else
    let numPages := numPages_of (Total s) (PerPage s) in
    let s := set_TotalPages numPages s in
    let s :=
      if decide (Page s > numPages)
      then set_Page numPages
             (set_Offset (int_mul (int_sub numPages 1) (PerPage s)) s)
      else s in
    let '(first, last) := window (Page s) numPages (NumPageNums (o (pg s))) in
    let s := if decide (first ≠ 1) then set_PinFirstPage true s else s in
    let s := if decide (last ≠ numPages) then set_PinLastPage true s else s in
    let cap := int_add (int_sub last first) 1 in
    if decide (cap < 0) then (Panics, s)
    else
      match pages_loop (S (Z.to_nat cap)) first last [] with
      | Some l => (Returns, set_Pages l s)
      | None => (Diverges, set_Pages [] s)
      end.

(** [(s *Set) SetTotal(t int)] *)
Definition SetTotal (s : Set_) (t : Z) : exit * Set_ :=
  generateNumbers (set_Total t s).

(** The contents of a set after successive calls [s.SetTotal(t)], one
    for each [t] of [ts] in order. *)
Definition SetTotals (s : Set_) (ts : list Z) : Set_ :=
  foldl (λ s t, (SetTotal s t).2) s ts.

End Platform.

(** The conversion of an unrepresentable float on amd64 and on arm64. *)
Definition amd64 (_ : spec_float) : Z := min_int.
Definition arm64 (x : spec_float) : Z :=
  match x with
  | S754_nan => 0
  | S754_infinity s | S754_zero s | S754_finite s _ _ =>
      if s then min_int else max_int
  end.


(** ** Rounding of binary64, for the proofs

    [located rho den l]: the location [l] says where [rho / den], in
    [0, 1), lies: at 0, below, at or above one half. [norm53 s m e] is the
    float of sign [s] with the value [m * 2 ^ e] for a mantissa [m] from
    [2 ^ 52] to [2 ^ 53] inclusive, the latter renormalised. *)
Definition located (rho den : Z) (l : location) : Prop :=
  match l with
  | loc_Exact => rho = 0
  | loc_Inexact c => 0 < rho ∧ (2 * rho ?= den) = c
  end.

Definition norm53 (s : bool) (m e : Z) : spec_float :=
  if decide (m = 2 ^ 53) then S754_finite s (Z.to_pos (2 ^ 52)) (e + 1)
  else S754_finite s (Z.to_pos m) e.

(** ** Decimal text, for the properties of [NewFromURL]

    [decimal_value s] is the number a decimal integer [s] denotes, and
    [clamp_int z] the [int] nearest to [z]. *)
Definition decimal_value (s : string) : Z :=
  match s with
  | String c _ =>
      if decide (c = "-"%char) then - leading_value (unsigned_part s) 0
      else leading_value (unsigned_part s) 0
  | EmptyString => 0
  end.

Definition clamp_int (z : Z) : Z := Z.max min_int (Z.min max_int z).

(** ** Escaped text, for the properties of [HTML]

    The characters of an encoded query: those [shouldEscape] lets through,
    and the percent sign, plus, equals sign and ampersand that [QueryEscape]
    and [Encode] write themselves. *)
Definition url_safe (c : ascii) : bool :=
  negb (url.shouldEscape c)
  || bool_decide (c = "%"%char ∨ c = "+"%char ∨ c = "="%char ∨ c = "&"%char).

Fixpoint all_safe (s : string) : bool :=
  match s with
  | EmptyString => true
  | String c s' => url_safe c && all_safe s'
  end.

(** Case analysis on every [decide] of the goal. *)
Ltac split_decides :=
  repeat match goal with |- context [decide ?P] => destruct (decide P) end.

(** * Properties *)

(** ** Arithmetic of [int] *)

Lemma wrap_in_int (z : Z) : in_int z → wrap z = z.
Proof.
  unfold in_int, min_int, max_int, wrap. intros [Hlo Hhi].
  rewrite Z.mod_small; lia.
Qed.

Lemma wrap_range (z : Z) : in_int (wrap z).
Proof.
  unfold in_int, min_int, max_int, wrap.
  pose proof (Z.mod_pos_bound (z + 2 ^ 63) (2 ^ 64) ltac:(lia)). lia.
Qed.

Lemma in_int_bounds (z : Z) : in_int z ↔ - 2 ^ 63 ≤ z ≤ 2 ^ 63 - 1.
Proof. reflexivity. Qed.

Lemma wrap_wrap_add (a b : Z) : wrap (wrap a + b) = wrap (a + b).
Proof.
  unfold wrap. f_equal.
  replace ((a + 2 ^ 63) mod 2 ^ 64 - 2 ^ 63 + b + 2 ^ 63)
    with ((a + 2 ^ 63) mod 2 ^ 64 + b) by lia.
  rewrite Zplus_mod_idemp_l. f_equal. lia.
Qed.

Lemma wrap_above (c : Z) : 2 ^ 63 ≤ c < 2 ^ 64 → wrap c = c - 2 ^ 64.
Proof.
  intros Hc. unfold wrap.
  replace ((c + 2 ^ 63) mod 2 ^ 64) with (c - 2 ^ 63); [lia |].
  apply Z.mod_unique with (q := 1); lia.
Qed.

(** ** [Paginator.New] *)

(** C1: for every page and per-page value, [Paginator.New] sanitises the
    per-page value with the precedence unbounded (negative with [AllowAll]),
    default (below 1), maximum (above [MaxPerPage] without [AllowAll]), else
    unchanged; it raises a page below 1 to 1; and [Offset] is the [int]
    product [(page - 1) * per_page] of the sanitised values, which is the
    exact product whenever that fits an [int], and [Limit] is the sanitised
    per-page value. *)
Theorem New_sanitizes (p : Paginator) (page perPage : Z) :
  let s := Paginator_New p page perPage in
  (perPage < 0 ∧ AllowAll (o p) = true → PerPage s = 0) ∧
  (perPage < 1 ∧ ¬ (perPage < 0 ∧ AllowAll (o p) = true) →
     PerPage s = DefaultPerPage (o p)) ∧
  (1 ≤ perPage ∧ AllowAll (o p) = false ∧ perPage > MaxPerPage (o p) →
     PerPage s = MaxPerPage (o p)) ∧
  (1 ≤ perPage ∧ AllowAll (o p) = true → PerPage s = perPage) ∧
  (1 ≤ perPage ≤ MaxPerPage (o p) → PerPage s = perPage) ∧
  (page < 1 → Page s = 1) ∧
  (1 ≤ page → Page s = page) ∧
  Offset s = int_mul (int_sub (Page s) 1) (PerPage s) ∧
  Limit s = PerPage s ∧
  (in_int page → in_int ((Page s - 1) * PerPage s) →
     Offset s = (Page s - 1) * PerPage s).
Proof.
  cbn zeta. unfold Paginator_New, sanitize_perPage, sanitize_page. cbn [PerPage Page Offset Limit].
  repeat split.
  - intros [? ?]. rewrite decide_True by done. done.
  - intros [? ?]. rewrite decide_False by done. by rewrite decide_True.
  - intros (? & ? & ?). rewrite decide_False by lia.
    rewrite decide_False by lia. by rewrite decide_True.
  - intros [? HA]. rewrite decide_False by lia. rewrite decide_False by lia.
    rewrite decide_False; [done | rewrite HA; intros [? ?]; done].
  - intros [? ?]. rewrite decide_False by lia. rewrite decide_False by lia.
    rewrite decide_False; [done | lia].
  - intros ?. by rewrite decide_True.
  - intros ?. rewrite decide_False; [done | lia].
  - intros Hp Hprod. unfold int_mul, int_sub.
    assert (in_int ((if decide (page < 1) then 1 else page) - 1)) as Hs.
    { revert Hp. rewrite !in_int_bounds. case_decide; lia. }
    rewrite (wrap_in_int _ Hs). by rewrite wrap_in_int.
Qed.

(** The sanitised values at a concrete request: page 0 and 500 per page
    under the default options. *)
Lemma New_sanitizes_witness :
  Page (Paginator_New (New Default) 0 500) = 1 ∧
  PerPage (Paginator_New (New Default) 0 500) = 50.
Proof.
  pose proof (New_sanitizes (New Default) 0 500) as H. cbn zeta in H.
  destruct H as (_ & _ & H3 & _ & _ & H6 & _).
  split; [apply H6; lia | apply H3; vm_compute; repeat split; done].
Defined.

(** ** binary64: conversion, division and ceiling *)

Lemma digits2_pos_bounds (m : positive) :
  2 ^ (Zpos (digits2_pos m) - 1) ≤ Zpos m < 2 ^ Zpos (digits2_pos m).
Proof.
  induction m as [m IH | m IH |]; cbn [digits2_pos].
  - rewrite Pos2Z.inj_succ, Z.pow_succ_r by lia.
    replace (Z.succ (Zpos (digits2_pos m)) - 1) with (Z.succ (Zpos (digits2_pos m) - 1)) by lia.
    rewrite Z.pow_succ_r by lia. lia.
  - rewrite Pos2Z.inj_succ, Z.pow_succ_r by lia.
    replace (Z.succ (Zpos (digits2_pos m)) - 1) with (Z.succ (Zpos (digits2_pos m) - 1)) by lia.
    rewrite Z.pow_succ_r by lia. lia.
  - cbn. lia.
Qed.

Lemma digits2_pos_unique (m : positive) (d : Z) :
  2 ^ (d - 1) ≤ Zpos m < 2 ^ d → Zpos (digits2_pos m) = d.
Proof.
  intros [Hlo Hhi]. pose proof (digits2_pos_bounds m) as [Hlo' Hhi'].
  assert (0 < d).
  { destruct (decide (0 < d)); [done |].
    assert (2 ^ d ≤ 2 ^ 0) by (destruct (decide (d < 0));
      [rewrite Z.pow_neg_r by done; cbn; lia | apply Z.pow_le_mono_r; lia]).
    cbn in *. lia. }
  destruct (Z.lt_trichotomy (Zpos (digits2_pos m)) d) as [Hlt | [Heq | Hgt]]; [| done |].
  - assert (2 ^ Zpos (digits2_pos m) ≤ 2 ^ (d - 1)) by (apply Z.pow_le_mono_r; lia). lia.
  - assert (2 ^ d ≤ 2 ^ (Zpos (digits2_pos m) - 1)) by (apply Z.pow_le_mono_r; lia). lia.
Qed.

Lemma iter_xO_pow2 (m k : positive) :
  Zpos (Pos.iter xO m k) = Zpos m * 2 ^ Zpos k.
Proof.
  rewrite <- Z.shiftl_mul_pow2 by lia.
  change (Z.shiftl (Zpos m) (Zpos k)) with (Pos.iter (Z.mul 2) (Zpos m) k).
  by apply Pos.iter_swap_gen.
Qed.

Lemma iter_pos_iter {A : Type} (f : A → A) (p : positive) (x : A) :
  SpecFloat.iter_pos f p x = Pos.iter f x p.
Proof.
  revert x. induction p as [p IH | p IH |]; intros x; cbn [SpecFloat.iter_pos Pos.iter].
  - by rewrite !IH, !Pos.iter_swap.
  - by rewrite !IH.
  - done.
Qed.

Lemma shr_1_m (mrs : shr_record) : shr_m (shr_1 mrs) = Z.quot2 (shr_m mrs).
Proof. destruct mrs as [[| [m | m |] | [m | m |]] r s]; reflexivity. Qed.

Lemma iter_quot2 (k : positive) (m : Z) :
  0 ≤ m → Pos.iter Z.quot2 m k = m / 2 ^ Zpos k.
Proof.
  intros Hm. induction k as [| k IH] using Pos.peano_ind.
  - cbn [Pos.iter]. rewrite Zquot2_quot, Z.quot_div_nonneg by lia. done.
  - rewrite Pos.iter_succ, IH, Zquot2_quot.
    rewrite Z.quot_div_nonneg by (try apply Z.div_pos; lia).
    rewrite Z.div_div by lia. rewrite Pos2Z.inj_succ, Z.pow_succ_r by lia.
    f_equal. lia.
Qed.

Lemma shr_m_iter (k : positive) (mrs : shr_record) :
  0 ≤ shr_m mrs →
  shr_m (SpecFloat.iter_pos shr_1 k mrs) = shr_m mrs / 2 ^ Zpos k.
Proof.
  intros Hm. rewrite iter_pos_iter, <- iter_quot2 by done.
  apply (Pos.iter_swap_gen _ _ shr_m shr_1 Z.quot2). apply shr_1_m.
Qed.

Lemma fexp_normal (e : Z) : -1021 ≤ e → fexp prec emax e = e - 53.
Proof. unfold fexp, emin, prec, emax. lia. Qed.

(** A mantissa of 53 digits is left as it is by the rounding step. *)
Lemma binary_round_aux_canonical (s : bool) (m : positive) (e : Z) :
  Zpos (digits2_pos m) = 53 → -1074 ≤ e ≤ 971 →
  binary_round_aux prec emax s (Zpos m) e loc_Exact = S754_finite s m e.
Proof.
  intros Hd He. unfold binary_round_aux, shr_fexp.
  cbn [Zdigits2 shr_record_of_loc]. rewrite Hd, fexp_normal by lia.
  replace (53 + e - 53 - e) with 0 by lia. cbn [shr shr_m loc_of_shr_record round_nearest_even].
  cbn [Zdigits2 shr_record_of_loc]. rewrite Hd, fexp_normal by lia.
  replace (53 + e - 53 - e) with 0 by lia. cbn [shr shr_m].
  unfold emax, prec. destruct (Z.leb_spec e (1024 - 53)); [done | lia].
Qed.

Lemma float64_of_int_exact (t : Z) :
  0 < t < 2 ^ 53 →
  ∃ (m : positive) (k : Z),
    0 ≤ k ≤ 52 ∧ Zpos m = t * 2 ^ k ∧ Zpos (digits2_pos m) = 53 ∧
    float64_of_int t = S754_finite false m (- k).
Proof.
  intros [Hlo Hhi]. destruct t as [| p | p]; [lia | | lia].
  pose proof (digits2_pos_bounds p) as [Hd1 Hd2].
  assert (Zpos (digits2_pos p) ≤ 53) as Hd.
  { destruct (decide (Zpos (digits2_pos p) ≤ 53)); [done |].
    assert (2 ^ 53 ≤ 2 ^ (Zpos (digits2_pos p) - 1)) by (apply Z.pow_le_mono_r; lia).
    lia. }
  unfold float64_of_int, binary_normalize, binary_round.
  rewrite fexp_normal by lia. unfold shl_align.
  destruct (Zpos (digits2_pos p) + 0 - 53 - 0) as [| k | k] eqn:Hk; [| lia |].
  - exists p, 0. rewrite Z.mul_1_r.
    assert (Zpos (digits2_pos p) = 53) as H53 by lia.
    repeat split; [lia | lia | done |].
    by apply binary_round_aux_canonical.
  - exists (Pos.iter xO p k), (Zpos k).
    assert (Zpos (digits2_pos (Pos.iter xO p k)) = 53) as H53.
    { apply digits2_pos_unique. rewrite iter_xO_pow2.
      replace 53 with (Zpos (digits2_pos p) + Zpos k) at 2 by lia.
      replace (53 - 1) with (Zpos (digits2_pos p) - 1 + Zpos k) by lia.
      rewrite !Z.pow_add_r by lia.
      assert (0 < 2 ^ Zpos k) by (apply Z.pow_pos_nonneg; lia). nia. }
    repeat split; [lia | lia | apply iter_xO_pow2 | done |].
    replace (Zpos (digits2_pos p) + 0 - 53) with (- Zpos k) by lia.
    apply binary_round_aux_canonical; [done | lia].
Qed.

Lemma new_location_located (den rho : Z) :
  0 < den → 0 ≤ rho < den → located rho den (new_location den rho).
Proof.
  intros Hd Hr. unfold new_location, new_location_even, new_location_odd.
  destruct (Z.even den) eqn:He; destruct (Z.eqb_spec rho 0) as [-> | Hne];
    cbn [located]; try done; (split; [lia |]).
  - done.
  - rewrite <- Z.negb_odd in He. apply negb_false_iff in He.
    apply Z.odd_spec in He as [k ->].
    destruct (Z.compare_spec (2 * rho + 1) (2 * k + 1));
      [apply Z.compare_lt_iff | apply Z.compare_lt_iff | apply Z.compare_gt_iff]; lia.
Qed.

Lemma round_nearest_even_near (m rho den : Z) (l : location) :
  0 < den → 0 ≤ rho < den → located rho den l →
  m ≤ round_nearest_even m l ≤ m + 1 ∧
  Z.abs (2 * round_nearest_even m l * den - 2 * (m * den + rho)) ≤ den.
Proof.
  intros Hd Hr Hl. destruct l as [| []]; cbn [located round_nearest_even] in *.
  - subst. lia.
  - destruct Hl as [? Hc]. apply Z.compare_eq in Hc.
    destruct (Z.even m); cbv iota; lia.
  - destruct Hl as [? Hc]. rewrite Z.compare_lt_iff in Hc. lia.
  - destruct Hl as [? Hc]. rewrite Z.compare_gt_iff in Hc. lia.
Qed.

Lemma loc_of_shr_record_of_loc (m : Z) (l : location) :
  loc_of_shr_record (shr_record_of_loc m l) = l.
Proof. by destruct l as [| []]. Qed.

Lemma shr_m_of_loc (m : Z) (l : location) : shr_m (shr_record_of_loc m l) = m.
Proof. by destruct l as [| []]. Qed.

Lemma shr_1_parity (h b : Z) (r s : bool) :
  0 ≤ h → b = 0 ∨ b = 1 →
  shr_1 {| shr_m := 2 * h + b; shr_r := r; shr_s := s |}
  = {| shr_m := h; shr_r := bool_decide (b = 1); shr_s := r || s |}.
Proof.
  intros Hh [-> | ->]; destruct h as [| p | p]; try lia; reflexivity.
Qed.

(** One shift to the right halves the mantissa and keeps track of where the
    exact value lies. *)
Lemma shr_1_located (h b rho den : Z) (l : location) :
  0 ≤ h → b = 0 ∨ b = 1 → 0 < den → 0 ≤ rho < den → located rho den l →
  shr_m (shr_1 (shr_record_of_loc (2 * h + b) l)) = h ∧
  located (b * den + rho) (2 * den)
    (loc_of_shr_record (shr_1 (shr_record_of_loc (2 * h + b) l))).
Proof.
  intros Hh Hb Hd Hr Hl.
  assert (∀ c, located rho den (loc_Inexact c) → 0 < rho ∧ (2 * rho ?= den) = c)
    as Hin by done.
  destruct l as [| []]; [cbn [located] in Hl; subst rho | apply Hin in Hl as [Hpos Hc] ..];
    cbn [shr_record_of_loc];
    rewrite shr_1_parity by done; (split; [done |]);
    destruct Hb as [-> | ->]; cbn [loc_of_shr_record bool_decide decide_rel orb located];
    rewrite ?bool_decide_eq_true_2, ?bool_decide_eq_false_2 by lia;
    cbn [loc_of_shr_record orb located].
  all: try rewrite Z.compare_eq_iff in Hc.
  all: try rewrite Z.compare_lt_iff in Hc.
  all: try rewrite Z.compare_gt_iff in Hc.
  all: try (split; [lia |]).
  all: first [lia | apply Z.compare_eq_iff; lia | apply Z.compare_lt_iff; lia
             | apply Z.compare_gt_iff; lia].

Qed.

Lemma shr_fexp_53 (m : positive) (e : Z) (l : location) :
  Zpos (digits2_pos m) = 53 → -1074 ≤ e →
  shr_fexp prec emax (Zpos m) e l = (shr_record_of_loc (Zpos m) l, e).
Proof.
  intros Hd He. unfold shr_fexp. cbn [Zdigits2]. rewrite Hd, fexp_normal by lia.
  by replace (53 + e - 53 - e) with 0 by lia.
Qed.

Lemma shr_fexp_54 (m : positive) (e : Z) (l : location) :
  Zpos (digits2_pos m) = 54 → -1075 ≤ e →
  shr_fexp prec emax (Zpos m) e l = (shr_1 (shr_record_of_loc (Zpos m) l), e + 1).
Proof.
  intros Hd He. unfold shr_fexp. cbn [Zdigits2]. rewrite Hd, fexp_normal by lia.
  by replace (54 + e - 53 - e) with 1 by lia.
Qed.

(** The second rounding step: a mantissa that rounding carried to [2 ^ 53]
    is renormalised, any other one of 53 digits is kept. *)
Lemma round_renormalise (s : bool) (m e : Z) :
  2 ^ 52 ≤ m ≤ 2 ^ 53 → -1074 ≤ e ≤ 970 →
  (let '(mrs, e') := shr_fexp prec emax m e loc_Exact in
   match shr_m mrs with
   | 0 => S754_zero s
   | Zpos m' => if e' <=? emax - prec then S754_finite s m' e' else S754_infinity s
   | Zneg _ => S754_nan
   end) = norm53 s m e.
Proof.
  intros Hm He. unfold norm53. destruct m as [| p | p]; [lia | | lia].
  case_decide as H53.
  - rewrite shr_fexp_54 by (try apply digits2_pos_unique; lia).
    rewrite H53. cbn [shr_record_of_loc]. 
    change (2 ^ 53) with (2 * 2 ^ 52 + 0). rewrite shr_1_parity by lia.
    cbn [shr_m]. change (2 ^ 52) with (Zpos (Z.to_pos (2 ^ 52))) at 1.
    unfold emax, prec. destruct (Z.leb_spec (e + 1) (1024 - 53)); [done | lia].
  - rewrite shr_fexp_53 by (try apply digits2_pos_unique; lia).
    cbn [shr_record_of_loc shr_m Z.to_pos].
    unfold emax, prec. destruct (Z.leb_spec e (1024 - 53)); [done | lia].
Qed.

(** Rounding a quotient of 53 or 54 digits, located by [l] between two
    integers, to 53 digits: the result is a nearest one. *)
Lemma binary_round_aux_near (s : bool) (q rho den e : Z) (l : location) :
  2 ^ 52 ≤ q < 2 ^ 54 → 0 < den → 0 ≤ rho < den → located rho den l →
  -1074 ≤ e ≤ 960 →
  ∃ m j : Z,
    (j = 0 ∨ j = 1) ∧ 2 ^ 52 ≤ m ≤ 2 ^ 53 ∧
    Z.abs (2 * m * den * 2 ^ j - 2 * (q * den + rho)) ≤ den * 2 ^ j ∧
    binary_round_aux prec emax s q e l = norm53 s m (e + j).
Proof.
  intros Hq Hd Hr Hl He. destruct q as [| qp | qp]; [lia | | lia].
  unfold binary_round_aux.
  destruct (decide (Zpos qp < 2 ^ 53)) as [Hlt | Hge].
  - rewrite shr_fexp_53 by (try apply digits2_pos_unique; lia).
    rewrite shr_m_of_loc, loc_of_shr_record_of_loc.
    pose proof (round_nearest_even_near (Zpos qp) rho den l Hd Hr Hl) as [Hb Hn].
    exists (round_nearest_even (Zpos qp) l), 0.
    split; [by left |]. split; [lia |]. split; [rewrite Z.pow_0_r; lia |].
    rewrite Z.add_0_r. apply round_renormalise; lia.
  - rewrite shr_fexp_54 by (try apply digits2_pos_unique; lia).
    pose proof (Z.div_mod (Zpos qp) 2 ltac:(lia)) as Hdm.
    pose proof (Z.mod_pos_bound (Zpos qp) 2 ltac:(lia)) as Hmb.
    set (h := Zpos qp / 2) in *. set (b := Zpos qp mod 2) in *.
    rewrite Hdm.
    pose proof (shr_1_located h b rho den l ltac:(lia) ltac:(lia) Hd Hr Hl) as [Hm Hloc].
    rewrite Hm.
    pose proof (round_nearest_even_near h (b * den + rho) (2 * den) _
                  ltac:(lia) ltac:(nia) Hloc) as [Hb Hn].
    eexists _, 1. split; [by right |]. split; [| split; [| apply round_renormalise; lia]].
    + lia.
    + rewrite Z.pow_1_r. rewrite <- Hdm. rewrite Hdm at 1.
      match goal with |- Z.abs ?x ≤ _ =>
        match type of Hn with Z.abs ?y ≤ _ => replace x with y by lia end end.
      lia.
Qed.

(** The quotient of two floats with mantissas of 53 digits is a nearest
    float to the exact quotient. *)
Lemma float64_div_near (mx my : positive) (ex ey : Z) :
  Zpos (digits2_pos mx) = 53 → Zpos (digits2_pos my) = 53 →
  -900 ≤ ex - ey ≤ 900 →
  ∃ m j : Z,
    (j = 0 ∨ j = 1) ∧ 2 ^ 52 ≤ m ≤ 2 ^ 53 ∧
    Z.abs (2 * m * Zpos my * 2 ^ j - 2 * (Zpos mx * 2 ^ 53)) ≤ Zpos my * 2 ^ j ∧
    float64_div (S754_finite false mx ex) (S754_finite false my ey)
    = norm53 false m (ex - ey - 53 + j).
Proof.
  intros Hdx Hdy He.
  pose proof (digits2_pos_bounds mx) as Hbx. rewrite Hdx in Hbx.
  pose proof (digits2_pos_bounds my) as Hby. rewrite Hdy in Hby.
  unfold float64_div, SFdiv, SFdiv_core_binary. cbn [Zdigits2 xorb].
  rewrite Hdx, Hdy, fexp_normal by lia.
  replace (Z.min (53 + ex - (53 + ey) - 53) (ex - ey)) with (ex - ey - 53) by lia.
  replace (ex - ey - (ex - ey - 53)) with 53 by lia.
  rewrite Z.shiftl_mul_pow2 by lia.
  pose proof (Z_div_mod (Zpos mx * 2 ^ 53) (Zpos my) ltac:(lia)) as Hdm.
  destruct (Z.div_eucl (Zpos mx * 2 ^ 53) (Zpos my)) as [q r].
  destruct Hdm as [Hdm Hr].
  assert (2 ^ 52 ≤ q < 2 ^ 54) as Hq by nia.
  pose proof (new_location_located (Zpos my) r ltac:(lia) Hr) as Hl.
  destruct (binary_round_aux_near false q r (Zpos my) (ex - ey - 53) _
              Hq ltac:(lia) Hr Hl ltac:(lia)) as (m & j & Hj & Hm & Hn & Hres).
  exists m, j. rewrite Hdm, (Z.mul_comm (Zpos my) q).
  repeat split; try done; lia.
Qed.

Lemma round_nearest_even_bounds (m : Z) (l : location) :
  m ≤ round_nearest_even m l ≤ m + 1.
Proof.
  destruct l as [| []]; cbn [round_nearest_even]; try lia.
  destruct (Z.even m); lia.
Qed.

(** The second rounding step yields a finite float or an infinity of the
    given sign, never a zero or a NaN. *)
Lemma round_renormalise_sign (s : bool) (m e : Z) :
  2 ^ 52 ≤ m ≤ 2 ^ 53 → -1074 ≤ e →
  let r := (let '(mrs, e') := shr_fexp prec emax m e loc_Exact in
            match shr_m mrs with
            | 0 => S754_zero s
            | Zpos m' => if e' <=? emax - prec then S754_finite s m' e'
                         else S754_infinity s
            | Zneg _ => S754_nan
            end) in
  (∃ m' e', r = S754_finite s m' e') ∨ r = S754_infinity s.
Proof.
  intros Hm He. cbn zeta. destruct m as [| p | p]; [lia | | lia].
  destruct (decide (Zpos p = 2 ^ 53)) as [H53 | H53].
  - rewrite shr_fexp_54 by (try apply digits2_pos_unique; lia).
    rewrite H53. cbn [shr_record_of_loc].
    change (2 ^ 53) with (2 * 2 ^ 52 + 0). rewrite shr_1_parity by lia.
    cbn [shr_m]. change (2 ^ 52) with (Zpos (Z.to_pos (2 ^ 52))) at 1.
    destruct (_ <=? _); eauto.
  - rewrite shr_fexp_53 by (try apply digits2_pos_unique; lia).
    cbn [shr_record_of_loc shr_m]. destruct (_ <=? _); eauto.
Qed.

(** [float64(t)] of a positive [t] is a positive finite float or [+Inf]. *)
Lemma float64_of_int_pos (t : Z) :
  0 < t →
  (∃ m e, float64_of_int t = S754_finite false m e) ∨
  float64_of_int t = S754_infinity false.
Proof.
  intros Ht. destruct (decide (t < 2 ^ 53)) as [Hlt | Hge].
  { destruct (float64_of_int_exact t ltac:(lia)) as (m & k & _ & _ & _ & ->). eauto. }
  destruct t as [| p | p]; [lia | | lia].
  pose proof (digits2_pos_bounds p) as [Hd1 Hd2].
  assert (53 < Zpos (digits2_pos p)) as Hd.
  { destruct (decide (53 < Zpos (digits2_pos p))); [done |].
    assert (2 ^ Zpos (digits2_pos p) ≤ 2 ^ 53) by (apply Z.pow_le_mono_r; lia). lia. }
  unfold float64_of_int, binary_normalize, binary_round.
  rewrite fexp_normal by lia. unfold shl_align.
  destruct (Zpos (digits2_pos p) + 0 - 53 - 0) as [| k | k] eqn:Hk; [lia | | lia].
  assert (shr_fexp prec emax (Zpos p) 0 loc_Exact
          = (SpecFloat.iter_pos shr_1 k (shr_record_of_loc (Zpos p) loc_Exact), Zpos k))
    as Hshr.
  { unfold shr_fexp. cbn [Zdigits2]. rewrite fexp_normal by lia.
    by replace (Zpos (digits2_pos p) + 0 - 53 - 0) with (Zpos k) by lia. }
  unfold binary_round_aux. rewrite Hshr. cbn [shr_record_of_loc].
  set (mrs := SpecFloat.iter_pos shr_1 k _).
  assert (shr_m mrs = Zpos p / 2 ^ Zpos k) as Hm by (by apply shr_m_iter).
  assert (2 ^ 52 ≤ shr_m mrs < 2 ^ 53) as Hb.
  { rewrite Hm.
    replace (Zpos (digits2_pos p)) with (53 + Zpos k) in Hd2 by lia.
    replace (Zpos (digits2_pos p) - 1) with (52 + Zpos k) in Hd1 by lia.
    rewrite Z.pow_add_r in Hd1, Hd2 by lia.
    assert (0 < 2 ^ Zpos k) by (apply Z.pow_pos_nonneg; lia).
    split; [apply Z.div_le_lower_bound; lia | apply Z.div_lt_upper_bound; lia]. }
  pose proof (round_nearest_even_bounds (shr_m mrs) (loc_of_shr_record mrs)).
  apply round_renormalise_sign; lia.
Qed.

Lemma float64_of_int_53 (t : Z) :
  0 < t ≤ 2 ^ 53 →
  ∃ (mx : positive) (ex : Z),
    Zpos (digits2_pos mx) = 53 ∧ -52 ≤ ex ≤ 1 ∧
    t * 2 ^ (1 - ex) = 2 * Zpos mx ∧
    float64_of_int t = S754_finite false mx ex.
Proof.
  intros Ht. destruct (decide (t = 2 ^ 53)) as [-> | Hne].
  - exists (Z.to_pos (2 ^ 52)), 1. by vm_compute.
  - destruct (float64_of_int_exact t ltac:(lia)) as (m & k & Hk & Hm & Hd & ->).
    exists m, (- k). repeat split; try done; try lia.
    replace (1 - - k) with (Z.succ k) by lia.
    rewrite Z.pow_succ_r by lia. lia.
Qed.

Section NumPages.

Variable indefinite : spec_float → Z.

Lemma int_of_float64_of_int (z : Z) :
  0 ≤ z < 2 ^ 53 → int_of_float64 indefinite (float64_of_int z) = z.
Proof.
  intros Hz. destruct (decide (z = 0)) as [-> | Hne]; [done |].
  destruct (float64_of_int_exact z ltac:(lia)) as (m & k & Hk & Hm & _ & ->).
  unfold int_of_float64, float64_trunc.
  rewrite Z.shiftl_div_pow2, Z.opp_involutive, Hm by lia.
  rewrite Z.div_mul by (apply Z.pow_nonzero; lia).
  apply decide_True. rewrite in_int_bounds. lia.
Qed.

(** [int(math.Ceil(x))] of a positive finite [x] below [2 ^ 63]. *)
Lemma int_Ceil_finite (m : positive) (e : Z) :
  Zpos m < 2 ^ 53 → e ≤ 10 →
  int_of_float64 indefinite (math.Ceil (S754_finite false m e))
  = if decide (0 ≤ e) then Zpos m * 2 ^ e
    else (Zpos m + 2 ^ (- e) - 1) / 2 ^ (- e).
Proof.
  intros Hm He. unfold math.Ceil. case_decide as He0.
  - unfold int_of_float64, float64_trunc. rewrite Z.shiftl_mul_pow2 by done.
    apply decide_True. rewrite in_int_bounds.
    assert (0 < 2 ^ e ≤ 2 ^ 10) by (split; [apply Z.pow_pos_nonneg | apply Z.pow_le_mono_r]; lia).
    nia.
  - rewrite (Z.shiftl_div_pow2 (Zpos m) e) by lia.
    assert (1 < 2 ^ (- e)) as Hg.
    { change 1 with (2 ^ 0). apply Z.pow_lt_mono_r; lia. }
    set (g := 2 ^ (- e)) in *.
    rewrite Z.shiftl_mul_pow2 by lia. fold g.
    pose proof (Z.div_mod (Zpos m) g ltac:(lia)) as Hdm.
    pose proof (Z.mod_pos_bound (Zpos m) g ltac:(lia)) as Hmb.
    set (ip := Zpos m / g) in *.
    assert (0 ≤ ip) by (apply Z.div_pos; lia).
    assert (ip < 2 ^ 52) by (apply Z.div_lt_upper_bound; lia).
    match goal with |- context [binary_normalize prec emax ?x 0 false] =>
      change (binary_normalize prec emax x 0 false) with (float64_of_int x) end.
    rewrite int_of_float64_of_int by (case_bool_decide; lia).
    case_bool_decide as Hfr.
    + apply Z.div_unique with (r := Zpos m mod g - 1); lia.
    + apply Z.div_unique with (r := g - 1); lia.
Qed.

Lemma int_Ceil_norm53 (m e : Z) :
  2 ^ 52 ≤ m ≤ 2 ^ 53 → e ≤ 0 →
  int_of_float64 indefinite (math.Ceil (norm53 false m e))
  = (m + 2 ^ (- e) - 1) / 2 ^ (- e).
Proof.
  intros Hm He. unfold norm53.
  assert (0 < 2 ^ (- e)) as Hg by (apply Z.pow_pos_nonneg; lia).
  case_decide as H53.
  - rewrite int_Ceil_finite by (cbn; lia). subst m.
    change (Zpos (Z.to_pos (2 ^ 52))) with (2 ^ 52).
    destruct (decide (0 ≤ e + 1)) as [H0 | H0].
    + assert (e = -1 ∨ e = 0) as [-> | ->] by lia; reflexivity.
    + replace (- e) with (Z.succ (- (e + 1))) by lia.
      rewrite Z.pow_succ_r by lia.
      assert (0 < 2 ^ (- (e + 1))) as Hg' by (apply Z.pow_pos_nonneg; lia).
      set (g := 2 ^ (- (e + 1))) in *.
      pose proof (Z.div_mod (2 ^ 52 + g - 1) g ltac:(lia)) as Hdm.
      pose proof (Z.mod_pos_bound (2 ^ 52 + g - 1) g ltac:(lia)) as Hmb.
      apply Z.div_unique with (r := 2 * ((2 ^ 52 + g - 1) mod g) + 1); lia.
  - destruct m as [| p | p]; [lia | | lia]. cbn [Z.to_pos].
    rewrite int_Ceil_finite by lia.
    case_decide; [| done].
    assert (e = 0) as -> by lia. cbn. rewrite Z.div_1_r. lia.
Qed.

(** The arithmetic behind the exactness of the page count: an integer [m]
    of at least 53 bits whose quotient by [g] is within half a unit in the
    last place of [t / p] has the same ceiling as [t / p]. *)
Lemma ceiling_of_nearest (m g n p t : Z) :
  0 < g → 0 < p → p < t → t ≤ 2 ^ 53 → 2 ^ 52 ≤ m →
  Z.abs (2 * m * p - 2 * t * g) ≤ p →
  (n - 1) * g < m ≤ n * g →
  (n - 1) * p < t ≤ n * p.
Proof.
  intros Hg Hp Hpt Ht Hm Hnear [Hn1 Hn2].
  assert (0 < n) by nia.
  split.
  - destruct (decide ((n - 1) * p < t)) as [| Hc]; [done | exfalso].
    assert (2 * t * g ≤ 2 * (n - 1) * p * g) by nia.
    assert (2 * ((n - 1) * g + 1) * p ≤ 2 * m * p) by nia.
    lia.
  - destruct (decide (t ≤ n * p)) as [| Hc]; [done | exfalso].
    assert (2 * (n * p + 1) * g ≤ 2 * t * g) by nia.
    assert (2 * m * p ≤ 2 * (n * g) * p) by nia.
    assert (2 * g ≤ p) by lia.
    assert (2 * (n * g) ≤ n * p) by nia.
    lia.
Qed.

(** For totals that [float64] represents exactly, the float computation of
    the number of pages is the ceiling of [t / p]. *)
Lemma numPages_of_exact (t p : Z) :
  0 < p → p < t → t ≤ 2 ^ 53 →
  (numPages_of indefinite t p - 1) * p < t ≤ numPages_of indefinite t p * p.
Proof.
  intros Hp Hpt Ht.
  destruct (decide (t = 2 ^ 53 ∧ p = 1)) as [[-> ->] | Hcorner].
  { by vm_compute. }
  destruct (float64_of_int_53 t ltac:(lia)) as (mx & ex & Hdx & Hex & Hmx & Hfx).
  destruct (float64_of_int_exact p ltac:(lia)) as (my & k & Hk & Hmy & Hdy & Hfy).
  destruct (float64_div_near mx my ex (- k) Hdx Hdy ltac:(lia))
    as (m & j & Hj & Hm & Hnear & Hdiv).
  pose proof (digits2_pos_bounds mx) as Hbx. rewrite Hdx in Hbx.
  pose proof (digits2_pos_bounds my) as Hby. rewrite Hdy in Hby.
  assert (0 < 2 ^ k) as Hk2 by (apply Z.pow_pos_nonneg; lia).
  assert (ex - - k - 53 + j ≤ 0) as HE.
  { destruct (decide (ex ≤ 0)); [lia |].
    assert (ex = 1) as -> by lia. rewrite Z.sub_diag, Z.pow_0_r in Hmx.
    assert (t = 2 ^ 53) as -> by lia.
    assert (2 ≤ p) by lia.
    assert (k < 52); [| lia].
    apply (Z.pow_lt_mono_r_iff 2); [lia | lia |].
    nia. }
  unfold numPages_of. rewrite Hfx, Hfy, Hdiv, int_Ceil_norm53 by lia.
  set (g := 2 ^ (- (ex - - k - 53 + j))).
  assert (0 < g) as Hg by (apply Z.pow_pos_nonneg; lia).
  set (n := (m + g - 1) / g).
  pose proof (Z.div_mod (m + g - 1) g ltac:(lia)) as Hdm.
  pose proof (Z.mod_pos_bound (m + g - 1) g ltac:(lia)) as Hmb.
  fold n in Hdm.
  apply (ceiling_of_nearest m g n p t); try lia.
  assert (0 < 2 ^ j) as Hj2 by (apply Z.pow_pos_nonneg; lia).
  assert (2 * g * (2 ^ k * 2 ^ j) = 2 ^ (1 - ex) * 2 ^ 53) as HgK.
  { unfold g. rewrite <- (Z.pow_1_r 2) at 1.
    rewrite <- !Z.pow_add_r by lia. f_equal. lia. }
  rewrite Hmy in Hnear.
  assert (2 * (Zpos mx * 2 ^ 53) = t * (2 * g * (2 ^ k * 2 ^ j))) as Hnum
    by (rewrite HgK; lia).
  rewrite Hnum in Hnear.
  set (K := 2 ^ k * 2 ^ j) in *. assert (0 < K) by (unfold K; lia).
  apply Z.abs_le. apply Z.abs_le in Hnear. nia.
Qed.

End NumPages.

(** ** [SetTotal] and [generateNumbers] *)

Section SetTotalFacts.

Variable indefinite : spec_float → Z.

(** Field by field, what [generateNumbers] leaves behind when it does not
    take the single-page exit. *)
Lemma generateNumbers_fields (s : Set_) :
  Total s > PerPage s →
  let n := numPages_of indefinite (Total s) (PerPage s) in
  let w := window (clamp_page (Page s) n) n (NumPageNums (o (pg s))) in
  let r := generateNumbers indefinite s in
  TotalPages r.2 = n ∧
  Page r.2 = clamp_page (Page s) n ∧
  Offset r.2 = (if decide (Page s > n)
                then int_mul (int_sub n 1) (PerPage s) else Offset s) ∧
  PinFirstPage r.2 = PinFirstPage s || bool_decide (w.1 ≠ 1) ∧
  PinLastPage r.2 = PinLastPage s || bool_decide (w.2 ≠ n) ∧
  (r.1, Pages r.2) = pages_outcome w.1 w.2 (Pages s) ∧
  Total r.2 = Total s ∧ PerPage r.2 = PerPage s ∧ Limit r.2 = Limit s ∧
  Params r.2 = Params s ∧ pg r.2 = pg s.
Proof.
  intros Hgt. cbn zeta. unfold generateNumbers, pages_outcome, clamp_page.
  rewrite decide_False by lia.
  set (n := numPages_of indefinite (Total s) (PerPage s)).
  cbn [Page PerPage pg set_TotalPages].
  destruct (decide (Page s > n)) as [Hp | Hp];
    cbn [Page PerPage pg set_Page set_Offset set_TotalPages];
    match goal with |- context [window ?a ?b ?c] =>
      destruct (window a b c) as [first last] end;
    cbn [fst snd];
    repeat case_decide; repeat case_match;
    cbn; rewrite ?orb_true_r, ?orb_false_r; repeat split; congruence.
Qed.

(** What [generateNumbers] leaves behind when it takes the single-page
    exit. *)
Lemma generateNumbers_short (s : Set_) :
  Total s ≤ PerPage s →
  generateNumbers indefinite s = (Returns, set_Page 1 (set_Offset 0 s)).
Proof. intros H. unfold generateNumbers. by rewrite decide_True. Qed.

(** C5: on a freshly built set, a total that does not exceed the per-page
    value makes [SetTotal] return at once with [Offset] 0 and [Page] 1,
    [Pages] empty, [TotalPages] 0 and neither pin flag set. *)
Theorem SetTotal_single_page (p : Paginator) (page perPage total : Z) :
  let s := Paginator_New p page perPage in
  total ≤ PerPage s →
  let r := SetTotal indefinite s total in
  r.1 = Returns ∧ Offset r.2 = 0 ∧ Page r.2 = 1 ∧ Pages r.2 = [] ∧
  TotalPages r.2 = 0 ∧ PinFirstPage r.2 = false ∧ PinLastPage r.2 = false ∧
  Total r.2 = total ∧ PerPage r.2 = PerPage s ∧ Limit r.2 = Limit s.
Proof.
  intros s Hle r. subst r. unfold SetTotal.
  rewrite generateNumbers_short by done.
  repeat split.
Qed.

(** C4: when the total exceeds the per-page value, [SetTotal] stores the
    computed number of pages in [TotalPages]; a page above it is clamped
    to it and [Offset] becomes the [int] product
    [(total_pages - 1) * per_page] (the exact product whenever that fits
    an [int]); a page that does not exceed it leaves [Page] and [Offset]
    as they were. *)
Theorem SetTotal_clamps_page (s : Set_) (total : Z) :
  total > PerPage s →
  let s' := (SetTotal indefinite s total).2 in
  TotalPages s' = numPages_of indefinite total (PerPage s) ∧
  (Page s > TotalPages s' →
     Page s' = TotalPages s' ∧
     Offset s' = int_mul (int_sub (TotalPages s') 1) (PerPage s') ∧
     (in_int (TotalPages s' - 1) →
      in_int ((TotalPages s' - 1) * PerPage s') →
      Offset s' = (TotalPages s' - 1) * PerPage s')) ∧
  (Page s ≤ TotalPages s' → Page s' = Page s ∧ Offset s' = Offset s).
Proof.
  intros Hgt s'. subst s'. unfold SetTotal.
  pose proof (generateNumbers_fields (set_Total total s)) as H.
  cbn [Total PerPage Page Offset pg set_Total] in H.
  specialize (H Hgt). cbn zeta in H.
  destruct H as (HT & HP & HO & _ & _ & _ & _ & HPP & _).
  rewrite HT, HP, HO, HPP. unfold clamp_page. split; [done |].
  split; intros Hc.
  - rewrite !decide_True by done. repeat split.
    intros H1 H2. unfold int_mul, int_sub.
    rewrite (wrap_in_int _ H1). by rewrite wrap_in_int.
  - rewrite !decide_False by lia. done.
Qed.

Lemma pages_outcome_again (first last : Z) (old : list Z) :
  pages_outcome first last (pages_outcome first last old).2
  = pages_outcome first last old.
Proof. unfold pages_outcome. case_decide; [done |]. by case_match. Qed.

Lemma clamp_page_again (page n : Z) :
  clamp_page (clamp_page page n) n = clamp_page page n.
Proof. unfold clamp_page. repeat case_decide; lia. Qed.

(** C8: a second [SetTotal] with the same total leaves [Pages], both pin
    flags and [TotalPages] as the first call left them (and ends the way
    the first call ended). *)
Theorem SetTotal_idempotent (s : Set_) (total : Z) :
  let r1 := SetTotal indefinite s total in
  let r2 := SetTotal indefinite r1.2 total in
  Pages r2.2 = Pages r1.2 ∧
  PinFirstPage r2.2 = PinFirstPage r1.2 ∧
  PinLastPage r2.2 = PinLastPage r1.2 ∧
  TotalPages r2.2 = TotalPages r1.2 ∧
  r2.1 = r1.1.
Proof.
  cbn zeta. unfold SetTotal.
  destruct (decide (total ≤ PerPage s)) as [Hle | Hgt].
  - rewrite (generateNumbers_short (set_Total total s)) by done.
    rewrite generateNumbers_short by done. done.
  - pose proof (generateNumbers_fields (set_Total total s)) as H1.
    cbn [Total PerPage Page Offset pg set_Total Pages PinFirstPage PinLastPage] in H1.
    specialize (H1 ltac:(lia)). cbn zeta in H1.
    set (r1 := generateNumbers indefinite (set_Total total s)) in *.
    destruct H1 as (HT & HP & _ & HF & HL & HO & Htot & HPP & _ & _ & Hpg).
    pose proof (generateNumbers_fields (set_Total total r1.2)) as H2.
    cbn [Total PerPage Page Offset pg set_Total Pages PinFirstPage PinLastPage] in H2.
    rewrite HPP in H2. specialize (H2 ltac:(lia)). cbn zeta in H2.
    set (r2 := generateNumbers indefinite (set_Total total r1.2)) in *.
    rewrite HP, Hpg, clamp_page_again in H2.
    destruct H2 as (HT2 & _ & _ & HF2 & HL2 & HO2 & _).
    rewrite HT, HT2, HF2, HL2, HF, HL.
    rewrite <- !orb_assoc, !orb_diag.
    assert (Pages r1.2 = (pages_outcome
      (window (clamp_page (Page s) (numPages_of indefinite total (PerPage s)))
         (numPages_of indefinite total (PerPage s)) (NumPageNums (o (pg s)))).1
      (window (clamp_page (Page s) (numPages_of indefinite total (PerPage s)))
         (numPages_of indefinite total (PerPage s)) (NumPageNums (o (pg s)))).2
      (Pages s)).2) as HPg by (by rewrite <- HO).
    rewrite HPg, pages_outcome_again, <- HO in HO2.
    by injection HO2 as -> ->.
Qed.

Lemma SetTotal_keeps_pins (s : Set_) (t : Z) :
  (PinFirstPage s = true → PinFirstPage (SetTotal indefinite s t).2 = true) ∧
  (PinLastPage s = true → PinLastPage (SetTotal indefinite s t).2 = true).
Proof.
  unfold SetTotal.
  destruct (decide (t ≤ PerPage s)) as [Hle | Hgt].
  - rewrite (generateNumbers_short (set_Total t s)) by done. done.
  - pose proof (generateNumbers_fields (set_Total t s)) as H.
    cbn [Total PerPage Page Offset pg set_Total Pages PinFirstPage PinLastPage] in H.
    specialize (H ltac:(lia)). cbn zeta in H.
    destruct H as (_ & _ & _ & HF & HL & _).
    rewrite HF, HL. by split; intros ->.
Qed.

(** C10: a pin flag that is set stays set through any further calls of
    [SetTotal], whatever their totals: the flags are only ever assigned
    [true]. *)
Theorem pin_flags_monotone (s : Set_) (ts : list Z) :
  (PinFirstPage s = true → PinFirstPage (SetTotals indefinite s ts) = true) ∧
  (PinLastPage s = true → PinLastPage (SetTotals indefinite s ts) = true).
Proof.
  revert s. induction ts as [| t ts IH]; intros s; [done |].
  unfold SetTotals. cbn [foldl]. fold (SetTotals indefinite).
  destruct (SetTotal_keeps_pins s t) as [HF HL].
  destruct (IH (SetTotal indefinite s t).2) as [IHF IHL].
  split; auto.
Qed.

(** *** The loop that fills [Pages] *)

(** Below the greatest [int] the loop exits, with the given fuel, on the
    numbers from [i] to [last]. *)
Lemma pages_loop_exits (fuel : nat) (i last : Z) (acc : list Z) :
  min_int ≤ i → last < max_int →
  (Z.to_nat (last - i + 1) < fuel)%nat →
  pages_loop fuel i last acc = Some (acc ++ seqZ i (last - i + 1)).
Proof.
  revert i acc. induction fuel as [| fuel IH]; intros i acc Hi Hl Hf; [lia |].
  cbn [pages_loop]. case_decide as Hle.
  - unfold int_add. rewrite wrap_in_int by (rewrite in_int_bounds; unfold min_int, max_int in *; lia).
    rewrite IH by (unfold min_int, max_int in *; lia).
    f_equal. rewrite <- app_assoc. f_equal.
    rewrite (seqZ_cons i) by lia. cbn. f_equal. f_equal; lia.
  - rewrite seqZ_nil by lia. by rewrite app_nil_r.
Qed.

(** With [last] the greatest [int] the loop never exits: [i++] wraps
    around and [i <= last] holds again. *)
Lemma pages_loop_never_exits (fuel : nat) (i : Z) (acc : list Z) :
  in_int i → pages_loop fuel i max_int acc = None.
Proof.
  revert i acc. induction fuel as [| fuel IH]; intros i acc Hi; [done |].
  cbn [pages_loop]. rewrite decide_True by apply Hi.
  apply IH, wrap_range.
Qed.

(** [generateNumbers] is said not to return only when its loop never exits,
    whatever the fuel. *)
Lemma pages_outcome_diverges (first last : Z) (old l : list Z) :
  in_int first → in_int last →
  pages_outcome first last old = (Diverges, l) →
  ∀ (fuel : nat) (acc : list Z), pages_loop fuel first last acc = None.
Proof.
  intros Hf Hl Ho fuel acc.
  destruct (decide (last = max_int)) as [-> | Hne];
    [by apply pages_loop_never_exits |].
  exfalso. revert Ho. unfold pages_outcome.
  case_decide as Hcap; [done |].
  destruct (decide (first ≤ last)) as [Hle | Hgt].
  - assert (int_add (int_sub last first) 1 = last - first + 1) as Hc.
    { unfold int_add, int_sub in *. rewrite wrap_wrap_add in *.
      rewrite in_int_bounds in Hf, Hl. unfold max_int in Hne.
      destruct (decide (last - first + 1 < 2 ^ 63)).
      - apply wrap_in_int. rewrite in_int_bounds. lia.
      - rewrite wrap_above in Hcap by lia. lia. }
    rewrite Hc.
    rewrite pages_loop_exits
      by (unfold in_int, min_int, max_int in *; lia).
    done.
  - destruct (Z.to_nat _); cbn [pages_loop]; by rewrite decide_False by lia.
Qed.

(** The window of a page within the pages, without wrap-around: the first
    [NumPageNums] pages near the front, the last [NumPageNums + 1] near the
    back, and [half] pages on either side of the page in between. *)
Lemma window_in_range (page n num : Z) :
  1 ≤ page ≤ n → n ≤ 2 ^ 53 → 0 ≤ num ≤ max_int →
  window page n num =
    if decide (n > num) then
      if decide (page ≤ num / 2) then (1, num)
      else if decide (page > n - num / 2) then (n - num, n)
      else (page - num / 2, page + num / 2)
    else (Z.max 1 (page - num / 2), Z.min n (page + num / 2)).
Proof.
  intros Hp Hn Hnum. unfold window, int_div, int_sub, int_add, max_int in *.
  rewrite Z.quot_div_nonneg by lia.
  pose proof (Z.div_mod num 2 ltac:(lia)) as Hdm.
  pose proof (Z.mod_pos_bound num 2 ltac:(lia)) as Hmb.
  set (half := num / 2) in *.
  rewrite (wrap_in_int half) by (rewrite in_int_bounds; lia).
  rewrite (wrap_in_int (page - half)) by (rewrite in_int_bounds; lia).
  rewrite (wrap_in_int (page + half)) by (rewrite in_int_bounds; lia).
  rewrite (wrap_in_int (n - half)) by (rewrite in_int_bounds; lia).
  destruct (decide (n > num)) as [Hgt | Hle].
  - repeat case_decide; try lia;
      rewrite ?(wrap_in_int (1 + num)), ?(wrap_in_int (1 + num - 1)),
              ?(wrap_in_int (n - num)), ?(wrap_in_int (page + half - num))
        by (rewrite in_int_bounds; lia);
      try (f_equal; lia).
  - repeat case_decide; f_equal; lia.
Qed.

Lemma pages_outcome_returns (first last : Z) (old : list Z) :
  0 ≤ first → first ≤ last + 1 → last < max_int →
  pages_outcome first last old = (Returns, seqZ first (last - first + 1)).
Proof.
  intros Hf Hfl Hl. unfold pages_outcome, int_add, int_sub.
  unfold min_int, max_int in *.
  rewrite (wrap_in_int (last - first)) by (rewrite in_int_bounds; lia).
  rewrite wrap_in_int by (rewrite in_int_bounds; lia).
  rewrite decide_False by lia.
  by rewrite pages_loop_exits by (unfold min_int, max_int; lia).
Qed.

(** With at least one row per page, a total up to [2 ^ 53] that exceeds the
    per-page value, a page from 1 on and a window width that is not
    negative, [SetTotal] returns: [Pages] lists the window, which lies
    within the pages and contains the clamped page. *)
Lemma SetTotal_returns (s : Set_) (total : Z) :
  1 ≤ PerPage s → PerPage s < total → total ≤ 2 ^ 53 → 1 ≤ Page s →
  0 ≤ NumPageNums (o (pg s)) ≤ max_int →
  let r := SetTotal indefinite s total in
  let w := window (Page r.2) (TotalPages r.2) (NumPageNums (o (pg s))) in
  r.1 = Returns ∧
  Pages r.2 = seqZ w.1 (w.2 - w.1 + 1) ∧
  1 ≤ w.1 ≤ Page r.2 ∧ Page r.2 ≤ w.2 ≤ TotalPages r.2.
Proof.
  intros Hpp Hpt Ht Hpage Hnum r w. subst r w. unfold SetTotal.
  pose proof (generateNumbers_fields (set_Total total s)) as H.
  cbn [Total PerPage Page Offset pg set_Total Pages] in H.
  specialize (H ltac:(lia)). cbn zeta in H.
  destruct H as (HT & HP & _ & _ & _ & HO & _).
  rewrite HT, HP in *.
  pose proof (numPages_of_exact indefinite total (PerPage s) ltac:(lia) Hpt Ht) as He.
  set (n := numPages_of indefinite total (PerPage s)) in *.
  assert (2 ≤ n ≤ 2 ^ 53) as Hn by nia.
  assert (1 ≤ clamp_page (Page s) n ≤ n) as Hc
    by (unfold clamp_page; case_decide; lia).
  set (page := clamp_page (Page s) n) in *.
  pose proof (window_in_range page n (NumPageNums (o (pg s))) Hc ltac:(lia) Hnum) as Hw.
  pose proof (Z.div_mod (NumPageNums (o (pg s))) 2 ltac:(lia)) as Hdm.
  pose proof (Z.mod_pos_bound (NumPageNums (o (pg s))) 2 ltac:(lia)) as Hmb.
  destruct (window page n (NumPageNums (o (pg s)))) as [first last].
  cbn [fst snd] in *.
  assert (1 ≤ first ≤ page ∧ page ≤ last ≤ n) as Hb.
  { revert Hw. repeat case_decide; intros [= -> ->]; lia. }
  rewrite pages_outcome_returns in HO
    by (unfold min_int, max_int; lia).
  injection HO as -> ->. repeat split; lia.
Qed.

(** X5: the number of page numbers generated when there are more pages
    than the window is wide: [NumPageNums] near the front, [NumPageNums + 1]
    near the end and [2 * (NumPageNums / 2) + 1] in between. *)
Lemma Pages_length (s : Set_) (total : Z) :
  1 ≤ PerPage s → PerPage s < total → total ≤ 2 ^ 53 → 1 ≤ Page s →
  0 ≤ NumPageNums (o (pg s)) →
  let r := SetTotal indefinite s total in
  let num := NumPageNums (o (pg s)) in
  TotalPages r.2 > num →
  Z.of_nat (length (Pages r.2)) =
    if decide (Page r.2 ≤ num / 2) then num
    else if decide (Page r.2 > TotalPages r.2 - num / 2) then num + 1
    else 2 * (num / 2) + 1.
Proof.
  intros Hpp Hpt Ht Hpage Hnum r num Hgt.
  assert (TotalPages r.2 ≤ 2 ^ 53) as Hn.
  { pose proof (SetTotal_returns s total Hpp Hpt Ht Hpage) as H.
    subst r. unfold SetTotal in *.
    pose proof (generateNumbers_fields (set_Total total s)) as HF.
    cbn [Total PerPage Page Offset pg set_Total Pages] in HF.
    specialize (HF ltac:(lia)). cbn zeta in HF. destruct HF as (HT & _).
    pose proof (numPages_of_exact indefinite total (PerPage s) ltac:(lia) Hpt Ht) as He.
    rewrite HT. nia. }
  destruct (SetTotal_returns s total Hpp Hpt Ht Hpage
              ltac:(unfold max_int; subst num; lia)) as (_ & HPs & Hb1 & Hb2).
  fold r in HPs, Hb1, Hb2. fold num in HPs, Hb1, Hb2.
  rewrite HPs, length_seqZ.
  pose proof (window_in_range (Page r.2) (TotalPages r.2) num
                ltac:(lia) Hn ltac:(unfold max_int; subst num; lia)) as Hw.
  pose proof (Z.div_mod num 2 ltac:(lia)) as Hdm.
  pose proof (Z.mod_pos_bound num 2 ltac:(lia)) as Hmb.
  rewrite Hw, decide_True by done.
  repeat case_decide; cbn [fst snd]; lia.
Qed.

(** C3, for totals up to [2 ^ 53]: with a per-page value of at least 1 and
    a larger total, [SetTotal] sets [TotalPages] to the ceiling of the total
    divided by the per-page value, that is to the [n] with
    [(n - 1) * per_page < total ≤ n * per_page]; 5 per page and 100 rows
    give 20. *)
Theorem SetTotal_total_pages (s : Set_) (total : Z) :
  1 ≤ PerPage s → PerPage s < total → total ≤ 2 ^ 53 →
  let n := TotalPages (SetTotal indefinite s total).2 in
  (n - 1) * PerPage s < total ≤ n * PerPage s ∧
  (PerPage s = 5 → total = 100 → n = 20).
Proof.
  intros Hp Hpt Ht n.
  assert (n = numPages_of indefinite total (PerPage s)) as Hn.
  { subst n. unfold SetTotal.
    pose proof (generateNumbers_fields (set_Total total s)) as H.
    cbn [Total PerPage Page Offset pg set_Total] in H.
    specialize (H ltac:(lia)). apply H. }
  pose proof (numPages_of_exact indefinite total (PerPage s) ltac:(lia) Hpt Ht) as He.
  rewrite <- Hn in He. split; [done | lia].
Qed.

(** [float64(total) / float64(0)] is [+Inf] for a positive total. *)
Lemma float64_div_by_zero (total : Z) :
  0 < total →
  float64_div (float64_of_int total) (float64_of_int 0) = S754_infinity false.
Proof.
  intros Ht. destruct (float64_of_int_pos total Ht) as [(m & e & ->) | ->]; done.
Qed.

(** C9: with a per-page value of 0 and a positive total, [SetTotal] does not
    take the single-page exit; the division is by zero and yields [+Inf],
    and [TotalPages] is whatever the platform converts [+Inf] to. *)
Theorem SetTotal_unbounded_divides_by_zero (s : Set_) (total : Z) :
  PerPage s = 0 → 0 < total →
  let r := SetTotal indefinite s total in
  ¬ total ≤ PerPage s ∧
  float64_div (float64_of_int total) (float64_of_int (PerPage s))
  = S754_infinity false ∧
  TotalPages r.2 = wrap (indefinite (S754_infinity false)).
Proof.
  intros Hp Ht r. split; [lia |]. rewrite Hp.
  split; [by apply float64_div_by_zero |].
  subst r. unfold SetTotal.
  pose proof (generateNumbers_fields (set_Total total s)) as H.
  cbn [Total PerPage Page Offset pg set_Total] in H.
  specialize (H ltac:(lia)). cbn zeta in H. destruct H as [-> _].
  unfold numPages_of. rewrite Hp. by rewrite float64_div_by_zero.
Qed.

(** C2 at the request of the test suite (page 10, 5 per page, 100 rows,
    default options): 20 pages, a window width of 10, and 11 page numbers
    generated. *)
Theorem window_has_eleven_entries :
  let r := SetTotal indefinite (Paginator_New (New Default) 10 5) 100 in
  r.1 = Returns ∧ TotalPages r.2 = 20 ∧ NumPageNums (o (pg r.2)) = 10 ∧
  Pages r.2 = [5; 6; 7; 8; 9; 10; 11; 12; 13; 14; 15] ∧
  length (Pages r.2) = 11%nat.
Proof. vm_compute. done. Qed.

End SetTotalFacts.


(** ** [HTML] *)

Lemma append_assoc (a b c : string) : (a +:+ b) +:+ c = a +:+ (b +:+ c).
Proof.
  induction a as [| x a IH]; [done |].
  change (String x ((a +:+ b) +:+ c) = String x (a +:+ (b +:+ c))).
  by f_equal.
Qed.

Lemma append_nil_r (a : string) : a +:+ EmptyString = a.
Proof.
  induction a as [| x a IH]; [done |].
  change (String x (a +:+ EmptyString) = String x a). by f_equal.
Qed.

Lemma same_but_Set (k : string) (q0 qp : gmap string (list string)) (v : string) :
  same_but k q0 qp → same_but k q0 (url.Set_ qp k v).
Proof.
  unfold same_but, url.Set_. intros H w.
  rewrite insert_insert_eq. apply H.
Qed.

Lemma write_pages_markup (s : Set_) (uri : string) (qp : Values)
    (ps : list Z) (b : string) (m : gmap string (list string)) :
  same_but (PageParam (o (pg s))) (default ∅ qp) m →
  let st := foldl (write_page s uri) (b, m) ps in
  st.1 = b +:+ foldr String.append EmptyString
           (map (λ p : Z,
                   anchor (if decide (Page s = p)
                           then "pg-page " +:+ "pg-selected" else "pg-page")
                          (page_url s uri qp (fmt.Sprintf_d p)) (fmt.Sprintf_d p))
                ps) ∧
  same_but (PageParam (o (pg s))) (default ∅ qp) st.2.
Proof.
  revert b m. induction ps as [| p ps IH]; intros b m Hm.
  - cbn. by rewrite append_nil_r.
  - cbn [foldl map foldr]. unfold write_page at 2.
    match goal with |- context [foldl _ (?b', ?m') ps] =>
      destruct (IH b' m') as [IH1 IH2] end.
    { by apply same_but_Set. }
    cbn zeta. split; [| done].
    rewrite IH1. unfold anchor, page_url.
    rewrite (Hm (fmt.Sprintf_d p)).
    case_decide; rewrite !append_assoc; reflexivity.
Qed.

Lemma write_first_markup (s : Set_) (uri : string) (qp : Values) :
  write_first s uri (EmptyString, default ∅ qp)
  = (anchor "pg-page-first" (page_url s uri qp "1") "1"
       +:+ ellipsis "pg-page-ellipsis-first",
     url.Set_ (default ∅ qp) (PageParam (o (pg s))) "1").
Proof.
  unfold write_first, anchor, ellipsis, page_url. f_equal.
  rewrite !append_assoc. reflexivity.
Qed.

Lemma write_last_markup (s : Set_) (uri : string) (qp : Values)
    (b : string) (m : gmap string (list string)) :
  same_but (PageParam (o (pg s))) (default ∅ qp) m →
  (write_last s uri (b, m)).1
  = b +:+ (ellipsis "pg-page-ellipsis-last"
             +:+ anchor "pg-page-last"
                   (page_url s uri qp (fmt.Sprintf_d (TotalPages s)))
                   (fmt.Sprintf_d (TotalPages s))).
Proof.
  intros Hm. unfold write_last, anchor, ellipsis, page_url. cbn [fst].
  rewrite (Hm (fmt.Sprintf_d (TotalPages s))).
  rewrite !append_assoc. reflexivity.
Qed.

(** C6, with the class the code writes: the markup is the first-page anchor
    and ellipsis when the first page is pinned, then one [pg-page] anchor
    per entry of [Pages] in order, the one of the current page carrying
    [pg-selected] after [pg-page], then the ellipsis and last-page anchor
    when the last page is pinned. *)
Theorem HTML_is_markup (s : Set_) (uri : string) (qp : Values) :
  HTML s uri qp = markup "pg-selected" s uri qp.
Proof.
  unfold HTML, HTML_run, markup.
  pose proof (write_pages_markup s uri qp (Pages s)) as HW.
  destruct (PinFirstPage s).
  - rewrite write_first_markup.
    match goal with |- context [foldl _ (?b', ?m') _] =>
      destruct (HW b' m') as [HW1 HW2]; [by apply same_but_Set; intros v |] end.
    destruct (PinLastPage s).
    + match goal with |- context [write_last _ _ ?st] =>
        destruct st as [b m] end.
      cbn [fst snd] in HW1, HW2.
      rewrite (write_last_markup s uri qp b m HW2), HW1.
      rewrite !append_assoc. reflexivity.
    + rewrite HW1, !append_assoc, !append_nil_r. reflexivity.
  - match goal with |- context [foldl _ (?b', ?m') _] =>
      destruct (HW b' m') as [HW1 HW2]; [by intros v |] end.
    destruct (PinLastPage s).
    + match goal with |- context [write_last _ _ ?st] =>
        destruct st as [b m] end.
      cbn [fst snd] in HW1, HW2.
      rewrite (write_last_markup s uri qp b m HW2), HW1.
      rewrite ?append_assoc. reflexivity.
    + rewrite HW1, ?append_nil_r. reflexivity.
Qed.

(** C6 as it is worded, at page 2 of 3 (10 per page, 25 rows): the anchor
    of the current page carries [pg-selected], not [pg-page-selected]. *)
Lemma HTML_selected_class_counterexample :
  HTML (SetTotal amd64 (Paginator_New (New Default) 2 10) 25).2 "/list" None
  = markup "pg-selected"
      (SetTotal amd64 (Paginator_New (New Default) 2 10) 25).2 "/list" None
  ∧
  HTML (SetTotal amd64 (Paginator_New (New Default) 2 10) 25).2 "/list" None
  ≠ markup "pg-page-selected"
      (SetTotal amd64 (Paginator_New (New Default) 2 10) 25).2 "/list" None.
Proof. split; by vm_compute. Qed.

(** ** [strconv.Atoi] and [NewFromURL] *)

Lemma byte_range (c : ascii) : 0 ≤ strconv.byte c < 256.
Proof.
  unfold strconv.byte. pose proof (N_ascii_bounded c). lia.
Qed.

Lemma is_digit_spec (c : ascii) :
  is_digit c = true ↔ 48 ≤ strconv.byte c ≤ 57.
Proof. unfold is_digit. by rewrite bool_decide_eq_true. Qed.

Lemma leading_value_mono (s : string) (n : Z) : 0 ≤ n → n ≤ leading_value s n.
Proof.
  revert n. induction s as [| c s IH]; intros n Hn; cbn [leading_value]; [lia |].
  destruct (is_digit c) eqn:Hc; [| lia].
  apply is_digit_spec in Hc.
  specialize (IH (n * 10 + (strconv.byte c - 48)) ltac:(lia)). lia.
Qed.

Lemma ParseUint_cutoff : strconv.maxUint64 / 10 + 1 = 1844674407370955162.
Proof. reflexivity. Qed.

(** The fast path stops at the first byte that is no digit. *)
Lemma Atoi_loop_not_digits (s : string) (n : Z) :
  all_digits s = false → strconv.Atoi_loop s n = None.
Proof.
  revert n. induction s as [| c s IH]; intros n Hs; [done |].
  cbn [all_digits strconv.Atoi_loop] in *. pose proof (byte_range c) as Hb.
  destruct (is_digit c) eqn:Hc.
  - apply is_digit_spec in Hc. cbn in Hs.
    rewrite decide_False by (rewrite Z.mod_small; lia). by apply IH.
  - apply decide_True. apply not_true_iff_false in Hc.
    rewrite is_digit_spec in Hc.
    destruct (decide (strconv.byte c < 48)).
    + replace ((strconv.byte c - 48) mod 256) with (strconv.byte c + 208); [lia |].
      apply Z.mod_unique with (q := -1); lia.
    + rewrite Z.mod_small; lia.
Qed.

(** The digit loop of [ParseUint] reports a syntax error at the first byte
    that is no digit, when the digits before it stay within [uint64]. *)
Lemma ParseUint_loop_syntax (s : string) (n : Z) :
  all_digits s = false → 0 ≤ n →
  leading_value s n ≤ strconv.maxUint64 →
  strconv.ParseUint_loop s n = (0, Some strconv.ErrSyntax).
Proof.
  revert n. induction s as [| c s IH]; intros n Hs Hn Hv; [done |].
  cbn [all_digits strconv.ParseUint_loop leading_value] in *.
  destruct (is_digit c) eqn:Hc.
  - apply is_digit_spec in Hc. cbn in Hs. rewrite decide_True by done.
    pose proof (leading_value_mono s (n * 10 + (strconv.byte c - 48)) ltac:(lia)) as Hm.
    rewrite ParseUint_cutoff. unfold strconv.maxUint64 in *.
    rewrite decide_False by lia. cbn zeta.
    rewrite Z.mod_small by lia.
    rewrite decide_False by lia. apply IH; [done | lia | done].
  - apply not_true_iff_false in Hc. rewrite is_digit_spec in Hc.
    by rewrite decide_False.
Qed.

(** It reports a range error as soon as the digits leave [uint64], whatever
    follows them. *)
Lemma ParseUint_loop_range (s : string) (n : Z) :
  0 ≤ n ≤ strconv.maxUint64 →
  leading_value s n > strconv.maxUint64 →
  strconv.ParseUint_loop s n = (strconv.maxUint64, Some strconv.ErrRange).
Proof.
  revert n. induction s as [| c s IH]; intros n Hn Hv;
    cbn [strconv.ParseUint_loop leading_value] in *; [lia |].
  destruct (is_digit c) eqn:Hc; [| lia].
  apply is_digit_spec in Hc. rewrite decide_True by done.
  rewrite ParseUint_cutoff.
  case_decide as Hcut; [done |]. cbn zeta.
  unfold strconv.maxUint64 in *.
  destruct (decide (n * 10 + (strconv.byte c - 48) < 2 ^ 64)) as [Hlt | Hge].
  - rewrite Z.mod_small by lia. rewrite decide_False by lia.
    apply IH; [lia | done].
  - apply decide_True. left.
    replace ((n * 10 + (strconv.byte c - 48)) mod 2 ^ 64)
      with (n * 10 + (strconv.byte c - 48) - 2 ^ 64); [lia |].
    apply Z.mod_unique with (q := 1); lia.
Qed.

(** A run of digits of length [k] from [n] stays below [(n + 1) * 10 ^ k]. *)
Lemma leading_value_bound (s : string) (n : Z) :
  0 ≤ n → leading_value s n < (n + 1) * 10 ^ Z.of_nat (String.length s).
Proof.
  revert n. induction s as [| c s IH]; intros n Hn; cbn [leading_value String.length].
  - cbn. lia.
  - rewrite Nat2Z.inj_succ, Z.pow_succ_r by lia.
    assert (0 < 10 ^ Z.of_nat (String.length s)) by (apply Z.pow_pos_nonneg; lia).
    destruct (is_digit c) eqn:Hc; [| nia].
    apply is_digit_spec in Hc.
    specialize (IH (n * 10 + (strconv.byte c - 48)) ltac:(lia)). nia.
Qed.

Lemma numeric_false_digits (s : string) :
  numeric s = false → unsigned_part s ≠ EmptyString →
  all_digits (unsigned_part s) = false.
Proof.
  unfold numeric. intros H Hne.
  rewrite bool_decide_eq_true_2 in H by done. done.
Qed.

(** [Atoi] yields 0, with a syntax error, on text that is no decimal
    integer and whose leading digits stay within [uint64]. *)
Lemma Atoi_unparsable (s : string) :
  unparsable s → strconv.Atoi s = (0, Some strconv.ErrSyntax).
Proof.
  intros [Hnum Hlead]. unfold strconv.Atoi.
  destruct s as [| c s']; [done |].
  pose proof (numeric_false_digits _ Hnum) as Hdig.
  cbn [unsigned_part] in *. unfold is_sign in *.
  destruct (decide (0 < _ < 19)) as [Hlen | Hlen].
  - destruct (decide (c = "-"%char ∨ c = "+"%char)) as [Hs | Hs].
    + rewrite (bool_decide_eq_true_2 _ Hs).
      rewrite bool_decide_eq_true_2 in Hdig, Hlead by tauto.
      destruct (decide (_ ∧ _ < 1)) as [Hs1 | Hs1]; [done |].
      destruct s' as [| c' s'']; [cbn in Hs1; lia |].
      by rewrite Atoi_loop_not_digits by (by apply Hdig).
    + rewrite (bool_decide_eq_false_2 _ Hs).
      rewrite bool_decide_eq_false_2 in Hdig, Hlead by tauto.
      rewrite decide_False by (by intros [? _]).
      by rewrite Atoi_loop_not_digits by (by apply Hdig).
  - unfold strconv.ParseInt, strconv.ParseUint.
    destruct (decide (c = "+"%char ∨ c = "-"%char)) as [Hs | Hs].
    + rewrite bool_decide_eq_true_2 in Hdig, Hlead by done.
      case_decide as He; [by rewrite decide_True |].
      rewrite ParseUint_loop_syntax by (done || lia || by apply Hdig).
      by rewrite decide_True.
    + rewrite bool_decide_eq_false_2 in Hdig, Hlead by done.
      rewrite decide_False by done.
      rewrite ParseUint_loop_syntax by (done || lia || by apply Hdig).
      by rewrite decide_True.
Qed.

(** [Atoi] yields the bound of the range error on text whose leading digits
    leave [uint64], whatever follows them. *)
Lemma Atoi_overflow (s : string) :
  leading_value (unsigned_part s) 0 > strconv.maxUint64 →
  strconv.Atoi s = (range_bound s, Some strconv.ErrRange).
Proof.
  intros Hlead. unfold strconv.Atoi.
  pose proof (leading_value_bound (unsigned_part s) 0 ltac:(lia)) as Hb.
  assert (19 < Z.of_nat (String.length (unsigned_part s))) as Hlen.
  { destruct (decide (19 < Z.of_nat (String.length (unsigned_part s)))); [done |].
    pose proof (Z.pow_le_mono_r 10 (Z.of_nat (String.length (unsigned_part s))) 19
                  ltac:(lia) ltac:(lia)) as Hp.
    unfold strconv.maxUint64 in *. lia. }
  assert (Z.of_nat (String.length (unsigned_part s)) ≤ Z.of_nat (String.length s)) as Hle.
  { destruct s as [| c s']; [done |]. cbn [unsigned_part].
    destruct (is_sign c); cbn [String.length]; lia. }
  rewrite decide_False by lia.
  destruct s as [| c s']; [cbn in Hlen; lia |].
  unfold strconv.ParseInt, strconv.ParseUint, range_bound.
  cbn [unsigned_part] in *. unfold is_sign in *.
  destruct (decide (c = "+"%char ∨ c = "-"%char)) as [Hs | Hs].
  - rewrite bool_decide_eq_true_2 in Hlead, Hlen by done.
    rewrite decide_False by (intros ->; cbn in Hlen; lia).
    rewrite ParseUint_loop_range by (done || unfold strconv.maxUint64; lia).
    rewrite decide_False by done.
    destruct (decide (c = "-"%char)) as [Hm | Hm].
    + rewrite (bool_decide_eq_true_2 _ Hm).
      rewrite decide_False by (by intros [? _]).
      by rewrite decide_True by (split; [done | by vm_compute]).
    + rewrite (bool_decide_eq_false_2 _ Hm).
      by rewrite decide_True by (split; [done | by vm_compute]).
  - rewrite bool_decide_eq_false_2 in Hlead, Hlen by done.
    rewrite decide_False by done.
    rewrite ParseUint_loop_range by (done || unfold strconv.maxUint64; lia).
    rewrite decide_False by done.
    assert (c ≠ "-"%char) as Hm by tauto.
    rewrite (bool_decide_eq_false_2 _ Hm).
    rewrite decide_True by (split; [done | by vm_compute]).
    by rewrite decide_False.
Qed.

Lemma Get_missing (q : Values) (k : string) :
  missing q k → url.Get q k = EmptyString.
Proof.
  unfold missing, url.Get. destruct q as [m |]; [| done].
  by intros [-> | ->].
Qed.

Lemma unparsable_empty : unparsable EmptyString.
Proof. split; [done | by vm_compute]. Qed.

Lemma New_AllowAllParam (opt : Opt) : AllowAllParam (o (New opt)) ≠ EmptyString.
Proof. unfold New. cbn [o]. case_decide; [done | done]. Qed.

(** C7, with the one case the wording misses: [NewFromURL] is
    [Paginator.New] at the parsed values, so it always yields a set; a
    missing value, or one that is no decimal integer and whose leading
    digits stay within [uint64], counts as 0 (page 1, default per-page); a
    value whose leading digits leave [uint64] counts as the bound of the
    range error even when other text follows; and a raw per-page value equal
    to [AllowAllParam] is passed on as -1, which gives [PerPage] 0 under
    [AllowAll]. *)
Theorem NewFromURL_parses (opt : Opt) (q : Values) :
  let p := New opt in
  let rawPage := url.Get q (PageParam (o p)) in
  let rawPer := url.Get q (PerPageParam (o p)) in
  let r := NewFromURL p q in
  r = Paginator_New p (strconv.Atoi rawPage).1
        (if decide (rawPer = AllowAllParam (o p)) then -1
         else (strconv.Atoi rawPer).1) ∧
  (missing q (PageParam (o p)) → Page r = 1) ∧
  (missing q (PerPageParam (o p)) → PerPage r = DefaultPerPage (o p)) ∧
  (unparsable rawPage → Page r = 1) ∧
  (unparsable rawPer → rawPer ≠ AllowAllParam (o p) →
     PerPage r = DefaultPerPage (o p)) ∧
  (unparsable rawPage → unparsable rawPer → rawPer ≠ AllowAllParam (o p) →
     r = Paginator_New p 0 0) ∧
  (leading_value (unsigned_part rawPage) 0 > strconv.maxUint64 →
     Page r = sanitize_page (range_bound rawPage)) ∧
  (leading_value (unsigned_part rawPer) 0 > strconv.maxUint64 →
     rawPer ≠ AllowAllParam (o p) →
     PerPage r = sanitize_perPage p (range_bound rawPer)) ∧
  (rawPer = AllowAllParam (o p) →
     r = Paginator_New p (strconv.Atoi rawPage).1 (-1)) ∧
  (rawPer = AllowAllParam (o p) → AllowAll (o p) = true → PerPage r = 0).
Proof.
  intros p rawPage rawPer r.
  assert (r = Paginator_New p (strconv.Atoi rawPage).1
                (if decide (rawPer = AllowAllParam (o p)) then -1
                 else (strconv.Atoi rawPer).1)) as Hr by reflexivity.
  assert (∀ x y, Page (Paginator_New p x y) = sanitize_page x) as HP by done.
  assert (∀ x y, PerPage (Paginator_New p x y) = sanitize_perPage p y) as HPP by done.
  assert (sanitize_perPage p 0 = DefaultPerPage (o p)) as H0.
  { unfold sanitize_perPage. rewrite decide_False by lia. by rewrite decide_True. }
  assert (unparsable rawPage → Page r = 1) as HuP.
  { intros Hu. by rewrite Hr, HP, Atoi_unparsable. }
  assert (unparsable rawPer → rawPer ≠ AllowAllParam (o p) →
          PerPage r = DefaultPerPage (o p)) as HuPP.
  { intros Hu Hne. rewrite Hr, HPP, decide_False by done.
    by rewrite Atoi_unparsable. }
  split; [done |]. split; [| split].
  { intros Hm. apply HuP. subst rawPage. rewrite Get_missing by done.
    apply unparsable_empty. }
  { intros Hm.
    assert (rawPer = EmptyString) as He by (by apply Get_missing).
    apply HuPP; rewrite He; [apply unparsable_empty |].
    intros Heq. by apply (New_AllowAllParam opt). }
  split; [done |]. split; [done |]. split.
  { intros Hu1 Hu2 Hne. rewrite Hr, decide_False by done.
    by rewrite !Atoi_unparsable. }
  split.
  { intros Ho. by rewrite Hr, HP, Atoi_overflow. }
  split.
  { intros Ho Hne. rewrite Hr, HPP, decide_False by done.
    by rewrite Atoi_overflow. }
  split.
  { intros He. by rewrite Hr, decide_True. }
  intros He HA. rewrite Hr, HPP, decide_True by done.
  unfold sanitize_perPage. by rewrite decide_True.
Qed.

(** The parsed values at a concrete request: no page, and the per-page
    value [all] with [AllowAll] switched on. *)
Lemma NewFromURL_parses_witness :
  Page (NewFromURL
          (New {| DefaultPerPage := 10; MaxPerPage := 50; NumPageNums := 10;
                  PerPageParam := "per_page"; PageParam := "page";
                  AllowAll := true; AllowAllParam := "all" |})
          (Some {[ "per_page" := ["all"] ]})) = 1 ∧
  PerPage (NewFromURL
          (New {| DefaultPerPage := 10; MaxPerPage := 50; NumPageNums := 10;
                  PerPageParam := "per_page"; PageParam := "page";
                  AllowAll := true; AllowAllParam := "all" |})
          (Some {[ "per_page" := ["all"] ]})) = 0.
Proof.
  pose proof (NewFromURL_parses
    {| DefaultPerPage := 10; MaxPerPage := 50; NumPageNums := 10;
       PerPageParam := "per_page"; PageParam := "page";
       AllowAll := true; AllowAllParam := "all" |}
    (Some {[ "per_page" := ["all"] ]})) as H.
  cbn zeta in H. destruct H as (_ & H1 & _ & _ & _ & _ & _ & _ & _ & H2).
  split; [apply H1; by left | apply H2; reflexivity].
Defined.

(** C7 as it is worded, at the per-page value of twenty nines and a
    letter: the value is no decimal integer, yet it is not parsed as 0
    (which would give the default 10 per page) but as the greatest [int],
    which [Paginator.New] clamps to [MaxPerPage]. *)
Lemma NewFromURL_overflow_counterexample :
  numeric "99999999999999999999x" = false ∧
  strconv.Atoi "99999999999999999999x" = (max_int, Some strconv.ErrRange) ∧
  PerPage (NewFromURL (New Default)
             (Some {[ "per_page" := ["99999999999999999999x"] ]})) = 50 ∧
  PerPage (Paginator_New (New Default) 0 0) = 10.
Proof. repeat split; by vm_compute. Qed.

(** ** The claims at concrete requests *)

(** C3 at 5 per page and 100 rows. *)
Lemma SetTotal_total_pages_witness :
  TotalPages (SetTotal amd64 (Paginator_New (New Default) 10 5) 100).2 = 20.
Proof.
  refine (proj2 (SetTotal_total_pages amd64 (Paginator_New (New Default) 10 5) 100
                   _ _ _) _ _); by vm_compute.
Defined.

(** C3 as it is worded, at one row per page and [2 ^ 53 + 1] rows:
    [float64] rounds the total to [2 ^ 53], and [TotalPages] is [2 ^ 53],
    one less than the ceiling. *)
Lemma SetTotal_total_pages_counterexample :
  PerPage (Paginator_New (New Default) 1 1) = 1 ∧
  float64_of_int (2 ^ 53 + 1) = float64_of_int (2 ^ 53) ∧
  TotalPages (SetTotal amd64 (Paginator_New (New Default) 1 1) (2 ^ 53 + 1)).2
  = 2 ^ 53 ∧
  TotalPages (SetTotal amd64 (Paginator_New (New Default) 1 1) (2 ^ 53 + 1)).2
  * PerPage (Paginator_New (New Default) 1 1) < 2 ^ 53 + 1.
Proof. repeat split; by vm_compute. Qed.

(** C4 at page 9 of what turns out to be 3 pages (10 per page, 25 rows). *)
Lemma SetTotal_clamps_page_witness :
  Page (SetTotal amd64 (Paginator_New (New Default) 9 10) 25).2 = 3 ∧
  Offset (SetTotal amd64 (Paginator_New (New Default) 9 10) 25).2 = 20.
Proof.
  pose proof (SetTotal_clamps_page amd64 (Paginator_New (New Default) 9 10) 25
                ltac:(by vm_compute)) as H.
  cbn zeta in H. destruct H as (HT & H & _).
  destruct H as (HP & _ & HO); [by vm_compute |].
  rewrite HP, HO; by vm_compute.
Defined.

(** C5 at 3 rows and 5 per page. *)
Lemma SetTotal_single_page_witness :
  Page (SetTotal amd64 (Paginator_New (New Default) 4 5) 3).2 = 1 ∧
  Offset (SetTotal amd64 (Paginator_New (New Default) 4 5) 3).2 = 0 ∧
  Pages (SetTotal amd64 (Paginator_New (New Default) 4 5) 3).2 = [].
Proof.
  pose proof (SetTotal_single_page amd64 (New Default) 4 5 3) as H.
  cbn zeta in H. specialize (H ltac:(by vm_compute)).
  destruct H as (_ & HO & HP & HPs & _). done.
Defined.

(** C9 with unbounded paging allowed and requested, 7 rows: the least
    [int] on amd64, the greatest on arm64. *)
Lemma SetTotal_unbounded_divides_by_zero_witness :
  TotalPages
    (SetTotal amd64
       (Paginator_New
          (New {| DefaultPerPage := 10; MaxPerPage := 50; NumPageNums := 10;
                  PerPageParam := "per_page"; PageParam := "page";
                  AllowAll := true; AllowAllParam := "all" |}) 1 (-1)) 7).2
  = min_int.
Proof.
  refine (proj2 (proj2 (SetTotal_unbounded_divides_by_zero amd64
    (Paginator_New
       (New {| DefaultPerPage := 10; MaxPerPage := 50; NumPageNums := 10;
               PerPageParam := "per_page"; PageParam := "page";
               AllowAll := true; AllowAllParam := "all" |}) 1 (-1)) 7 _ _)));
    by vm_compute.
Defined.

(** The cases of [TestPaginator] of the repository, on the embedding: the
    values [Paginator.New] yields, the same values again from [NewFromURL]
    on the query they print to, and the clamping of 500 per page with and
    without [AllowAll]. *)
Lemma TestPaginator :
  Forall
    (λ c : Z * Z * (Z * Z * Z * Z),
       let s := Paginator_New (New Default) c.1.1 c.1.2 in
       let q := Some (url.Set_ (url.Set_ ∅ "page" (fmt.Sprintf_d (Page s)))
                        "per_page" (fmt.Sprintf_d (PerPage s))) in
       let s' := NewFromURL (New Default) q in
       (Page s, PerPage s, Offset s, Limit s) = c.2 ∧
       (Page s', PerPage s', Offset s', Limit s') = c.2)
    [ (0, 5, (1, 5, 0, 5)); (-1, 5, (1, 5, 0, 5)); (1, 5, (1, 5, 0, 5));
      (10, 5, (10, 5, 45, 5)); (10, 10, (10, 10, 90, 10));
      (-1, 10, (1, 10, 0, 10)) ] ∧
  PerPage (NewFromURL (New Default)
             (Some (url.Set_ (url.Set_ ∅ "page" "1") "per_page" "500"))) = 50 ∧
  PerPage (NewFromURL
             (New {| DefaultPerPage := 10; MaxPerPage := 50; NumPageNums := 10;
                     PerPageParam := "per_page"; PageParam := "page";
                     AllowAll := true; AllowAllParam := "all" |})
             (Some (url.Set_ (url.Set_ ∅ "page" "1") "per_page" "500"))) = 500 ∧
  PerPage (NewFromURL
             (New {| DefaultPerPage := 10; MaxPerPage := 50; NumPageNums := 10;
                     PerPageParam := "per_page"; PageParam := "page";
                     AllowAll := true; AllowAllParam := "all" |})
             (Some (url.Set_ (url.Set_ ∅ "page" "1") "per_page" "all"))) = 0.
Proof.
  split; [repeat (constructor; [by vm_compute |]); constructor |].
  repeat split; by vm_compute.
Qed.

(** * Further properties of the code *)

(** ** [SetTotal]: what it keeps, the window, panics and runaway loops *)

Section SetTotalMore.

Variable indefinite : spec_float → Z.

(** X1: on every path, also when the call panics, [SetTotal] stores the
    total and leaves [PerPage], [Limit], [Params] and the paginator as they
    were; on the single-page exit it also leaves [TotalPages], [Pages] and
    both pin flags as an earlier call left them. *)
Theorem SetTotal_frame (s : Set_) (t : Z) :
  let s' := (SetTotal indefinite s t).2 in
  Total s' = t ∧ PerPage s' = PerPage s ∧ Limit s' = Limit s ∧
  Params s' = Params s ∧ pg s' = pg s ∧
  (t ≤ PerPage s →
     TotalPages s' = TotalPages s ∧ Pages s' = Pages s ∧
     PinFirstPage s' = PinFirstPage s ∧ PinLastPage s' = PinLastPage s).
Proof.
  cbn zeta. unfold SetTotal.
  destruct (decide (t ≤ PerPage s)) as [Hle | Hgt].
  - rewrite (generateNumbers_short indefinite (set_Total t s)) by done. done.
  - pose proof (generateNumbers_fields indefinite (set_Total t s)) as H.
    cbn [Total PerPage Page Offset pg set_Total Pages PinFirstPage PinLastPage
         Limit Params] in H.
    specialize (H ltac:(lia)). cbn zeta in H.
    destruct H as (_ & _ & _ & _ & _ & _ & H1 & H2 & H3 & H4 & H5).
    repeat split; done.
Qed.

(** X2: a set whose offset is [(page - 1) * per_page], with at least one
    row per page and a page from 1 on, keeps that relation through
    [SetTotal] for any total from 1 to [2 ^ 53], and afterwards the offset
    lies below the total: it addresses a row that exists. *)
Theorem SetTotal_offset_in_range (s : Set_) (total : Z) :
  1 ≤ Page s → 1 ≤ PerPage s → Offset s = (Page s - 1) * PerPage s →
  1 ≤ total → total ≤ 2 ^ 53 →
  let s' := (SetTotal indefinite s total).2 in
  1 ≤ Page s' ∧ Page s' ≤ Page s ∧
  Offset s' = (Page s' - 1) * PerPage s' ∧
  0 ≤ Offset s' < total.
Proof.
  intros Hpage Hpp Hoff Ht1 Ht2. cbn zeta. unfold SetTotal.
  destruct (decide (total ≤ PerPage s)) as [Hle | Hgt].
  - rewrite (generateNumbers_short indefinite (set_Total total s)) by done.
    cbn. lia.
  - pose proof (generateNumbers_fields indefinite (set_Total total s)) as H.
    cbn [Total PerPage Page Offset pg set_Total Pages PinFirstPage PinLastPage
         Limit Params] in H.
    specialize (H ltac:(lia)). cbn zeta in H.
    destruct H as (_ & HP & HO & _ & _ & _ & _ & HPP & _).
    pose proof (numPages_of_exact indefinite total (PerPage s)
                  ltac:(lia) ltac:(lia) Ht2) as He.
    set (n := numPages_of indefinite total (PerPage s)) in *.
    assert (2 ≤ n ≤ 2 ^ 53) as Hn by nia.
    rewrite HP, HO, HPP. unfold clamp_page.
    destruct (decide (Page s > n)) as [Hc | Hc].
    + unfold int_mul, int_sub.
      rewrite (wrap_in_int (n - 1)) by (rewrite in_int_bounds; lia).
      rewrite wrap_in_int by (rewrite in_int_bounds; nia).
      repeat split; nia.
    + rewrite Hoff. repeat split; nia.
Qed.

(** X3: with at least one row per page, a larger total up to [2 ^ 53], a
    page from 1 on and a window width that is not negative, [SetTotal]
    returns, there are at least two pages, and [Pages] is a run of
    consecutive page numbers within [1, TotalPages] that contains the
    current page. *)
Theorem SetTotal_window (s : Set_) (total : Z) :
  1 ≤ PerPage s → PerPage s < total → total ≤ 2 ^ 53 → 1 ≤ Page s →
  0 ≤ NumPageNums (o (pg s)) ≤ max_int →
  let r := SetTotal indefinite s total in
  r.1 = Returns ∧ 2 ≤ TotalPages r.2 ∧
  Page r.2 ∈ Pages r.2 ∧
  (∀ x, x ∈ Pages r.2 → 1 ≤ x ≤ TotalPages r.2) ∧
  (∃ first : Z, Pages r.2 = seqZ first (Z.of_nat (length (Pages r.2)))).
Proof.
  intros Hpp Hpt Ht Hpage Hnum r.
  destruct (SetTotal_returns indefinite s total Hpp Hpt Ht Hpage Hnum)
    as (Hret & HPs & Hb1 & Hb2).
  fold r in Hret, HPs, Hb1, Hb2.
  assert (2 ≤ TotalPages r.2) as Hn.
  { pose proof (generateNumbers_fields indefinite (set_Total total s)) as H.
    cbn [Total PerPage Page Offset pg set_Total Pages] in H.
    specialize (H ltac:(lia)). cbn zeta in H. destruct H as (HT & _).
    change (generateNumbers indefinite (set_Total total s)) with r in HT.
    pose proof (numPages_of_exact indefinite total (PerPage s)
                  ltac:(lia) Hpt Ht) as He.
    rewrite HT. nia. }
  set (w := window (Page r.2) (TotalPages r.2) (NumPageNums (o (pg s)))) in *.
  split; [done |]. split; [done |]. rewrite HPs.
  split; [apply elem_of_seqZ; lia |].
  split; [intros x Hx; apply elem_of_seqZ in Hx; lia |].
  exists w.1. rewrite length_seqZ. f_equal. lia.
Qed.

(** X4: under the same conditions, on a set with neither page pinned yet,
    the first page is pinned exactly when [Pages] does not contain page 1,
    and the last page exactly when [Pages] does not contain [TotalPages]. *)
Theorem pins_mark_missing_ends (s : Set_) (total : Z) :
  1 ≤ PerPage s → PerPage s < total → total ≤ 2 ^ 53 → 1 ≤ Page s →
  0 ≤ NumPageNums (o (pg s)) ≤ max_int →
  PinFirstPage s = false → PinLastPage s = false →
  let r := SetTotal indefinite s total in
  (PinFirstPage r.2 = true ↔ 1 ∉ Pages r.2) ∧
  (PinLastPage r.2 = true ↔ TotalPages r.2 ∉ Pages r.2).
Proof.
  intros Hpp Hpt Ht Hpage Hnum HF HL r.
  destruct (SetTotal_returns indefinite s total Hpp Hpt Ht Hpage Hnum)
    as (_ & HPs & Hb1 & Hb2).
  fold r in HPs, Hb1, Hb2.
  pose proof (generateNumbers_fields indefinite (set_Total total s)) as H.
  cbn [Total PerPage Page Offset pg set_Total Pages PinFirstPage PinLastPage] in H.
  specialize (H ltac:(lia)). cbn zeta in H.
  destruct H as (HT & HP & _ & HPF & HPL & _).
  change (generateNumbers indefinite (set_Total total s)) with r in *.
  rewrite <- HT in HP, HPF, HPL. rewrite <- HP in HPF, HPL.
  set (w := window (Page r.2) (TotalPages r.2) (NumPageNums (o (pg s)))) in *.
  rewrite HPF, HPL, HF, HL, HPs. cbn [orb].
  rewrite !bool_decide_eq_true, !elem_of_seqZ. lia.
Qed.

(** X6: a window width of -2 or less makes every [SetTotal] with more than
    one page of rows panic in [make]: the capacity [last - first + 1] is
    negative. [TotalPages] is already set then, [Pages] is left as it was. *)
Theorem SetTotal_negative_width_panics (s : Set_) (total : Z) :
  1 ≤ PerPage s → PerPage s < total → total ≤ 2 ^ 53 → 1 ≤ Page s →
  min_int ≤ NumPageNums (o (pg s)) ≤ -2 →
  let r := SetTotal indefinite s total in
  r.1 = Panics ∧ Pages r.2 = Pages s ∧
  TotalPages r.2 = numPages_of indefinite total (PerPage s).
Proof.
  intros Hpp Hpt Ht Hpage Hnum r. subst r. unfold SetTotal.
  pose proof (generateNumbers_fields indefinite (set_Total total s)) as H.
  cbn [Total PerPage Page Offset pg set_Total Pages PinFirstPage PinLastPage] in H.
  specialize (H ltac:(lia)). cbn zeta in H.
  destruct H as (HT & _ & _ & _ & _ & HO & _).
  pose proof (numPages_of_exact indefinite total (PerPage s) ltac:(lia) Hpt Ht) as He.
  set (n := numPages_of indefinite total (PerPage s)) in *.
  assert (2 ≤ n ≤ 2 ^ 53) as Hn by nia.
  assert (1 ≤ clamp_page (Page s) n ≤ n) as Hc
    by (unfold clamp_page; case_decide; lia).
  set (page := clamp_page (Page s) n) in *.
  set (num := NumPageNums (o (pg s))) in *.
  assert (window page n num = (page - Z.quot num 2, page + Z.quot num 2)) as Hw.
  { unfold window, int_div, int_sub, int_add, min_int in *.
    pose proof (Z.quot_rem' num 2) as Hqr.
    pose proof (Z.rem_bound_pos_neg num 2 ltac:(lia) ltac:(lia)) as Hrb.
    set (half := Z.quot num 2) in *.
    rewrite (wrap_in_int half) by (rewrite in_int_bounds; lia).
    rewrite (wrap_in_int (page - half)) by (rewrite in_int_bounds; lia).
    rewrite (wrap_in_int (page + half)) by (rewrite in_int_bounds; lia).
    rewrite (wrap_in_int (n - half)) by (rewrite in_int_bounds; lia).
    rewrite (decide_False (P := page - half < 1)) by lia.
    rewrite (decide_False (P := page + half > n)) by lia.
    rewrite (decide_True (P := n > num)) by lia.
    rewrite (decide_False (P := _ ∧ _)) by lia.
    by rewrite (decide_False (P := page > n - half)) by lia. }
  rewrite Hw in HO. cbn [fst snd] in HO.
  unfold pages_outcome in HO.
  rewrite decide_True in HO.
  - injection HO as -> ->. done.
  - unfold int_add, int_sub, min_int in *. rewrite wrap_wrap_add.
    pose proof (Z.quot_rem' num 2) as Hqr.
    pose proof (Z.rem_bound_pos_neg num 2 ltac:(lia) ltac:(lia)) as Hrb.
    rewrite wrap_in_int by (rewrite in_int_bounds; lia). lia.
Qed.

(** X7: when the rows fit on [NumPageNums / 2 + 1] pages, [Pages] lists
    every page from 1 to [TotalPages] and no pin flag is touched. *)
Theorem SetTotal_lists_all_pages (s : Set_) (total : Z) :
  1 ≤ PerPage s → PerPage s < total → total ≤ 2 ^ 53 → 1 ≤ Page s →
  0 ≤ NumPageNums (o (pg s)) ≤ max_int →
  total ≤ PerPage s * (NumPageNums (o (pg s)) / 2 + 1) →
  let r := SetTotal indefinite s total in
  Pages r.2 = seqZ 1 (TotalPages r.2) ∧
  PinFirstPage r.2 = PinFirstPage s ∧ PinLastPage r.2 = PinLastPage s.
Proof.
  intros Hpp Hpt Ht Hpage Hnum Hfit r.
  destruct (SetTotal_returns indefinite s total Hpp Hpt Ht Hpage Hnum)
    as (_ & HPs & Hb1 & Hb2).
  fold r in HPs, Hb1, Hb2.
  pose proof (generateNumbers_fields indefinite (set_Total total s)) as H.
  cbn [Total PerPage Page Offset pg set_Total Pages PinFirstPage PinLastPage] in H.
  specialize (H ltac:(lia)). cbn zeta in H.
  destruct H as (HT & HP & _ & HPF & HPL & _).
  change (generateNumbers indefinite (set_Total total s)) with r in *.
  pose proof (numPages_of_exact indefinite total (PerPage s) ltac:(lia) Hpt Ht) as He.
  rewrite <- HT in He, HP, HPF, HPL. rewrite <- HP in HPF, HPL.
  set (num := NumPageNums (o (pg s))) in *.
  pose proof (Z.div_mod num 2 ltac:(lia)) as Hdm.
  pose proof (Z.mod_pos_bound num 2 ltac:(lia)) as Hmb.
  assert (2 ≤ TotalPages r.2 ≤ num / 2 + 1) as Hn by nia.
  pose proof (window_in_range (Page r.2) (TotalPages r.2) num
                ltac:(lia) ltac:(nia) Hnum) as Hw.
  rewrite decide_False in Hw by lia.
  rewrite HPF, HPL, HPs, Hw. cbn [fst snd].
  replace (Z.max 1 (Page r.2 - num / 2)) with 1 by lia.
  replace (Z.min (TotalPages r.2) (Page r.2 + num / 2)) with (TotalPages r.2) by lia.
  rewrite !bool_decide_eq_false_2 by (intros ?; lia).
  rewrite !orb_false_r. repeat split. f_equal. lia.
Qed.

(** X8: on a platform that converts [+Inf] to the greatest [int], a set
    with a per-page value of 0 at the page [MaxInt - NumPageNums / 2] never
    comes back from [SetTotal] with a positive total: the window ends at the
    greatest [int], so [i <= last] holds for every [i] and the loop runs
    on whatever the fuel. *)
Theorem SetTotal_unbounded_never_returns (s : Set_) (total : Z) :
  wrap (indefinite (S754_infinity false)) = max_int →
  PerPage s = 0 → 0 < total →
  0 ≤ NumPageNums (o (pg s)) ≤ max_int →
  Page s = max_int - NumPageNums (o (pg s)) / 2 →
  (SetTotal indefinite s total).1 = Diverges ∧
  ∀ (fuel : nat) (acc : list Z),
    pages_loop fuel (max_int - 2 * (NumPageNums (o (pg s)) / 2)) max_int acc
    = None.
Proof.
  intros Hsat Hpp Ht Hnum Hpage.
  split; [| intros fuel acc; apply pages_loop_never_exits;
            rewrite in_int_bounds; unfold max_int in *;
            pose proof (Z.div_mod (NumPageNums (o (pg s))) 2 ltac:(lia));
            pose proof (Z.mod_pos_bound (NumPageNums (o (pg s))) 2 ltac:(lia)); lia].
  unfold SetTotal.
  pose proof (generateNumbers_fields indefinite (set_Total total s)) as H.
  cbn [Total PerPage Page Offset pg set_Total Pages PinFirstPage PinLastPage] in H.
  specialize (H ltac:(lia)). cbn zeta in H.
  destruct H as (_ & _ & _ & _ & _ & HO & _).
  assert (numPages_of indefinite total (PerPage s) = max_int) as Hn.
  { unfold numPages_of. rewrite Hpp, float64_div_by_zero by done. done. }
  rewrite Hn in HO.
  set (num := NumPageNums (o (pg s))) in *.
  pose proof (Z.div_mod num 2 ltac:(lia)) as Hdm.
  pose proof (Z.mod_pos_bound num 2 ltac:(lia)) as Hmb.
  assert (clamp_page (Page s) max_int = Page s) as Hc
    by (unfold clamp_page, max_int in *; apply decide_False; lia).
  rewrite Hc in HO.
  assert (window (Page s) max_int num = (max_int - 2 * (num / 2), max_int)) as Hw.
  { unfold window, int_div, int_sub, int_add.
    rewrite Z.quot_div_nonneg by lia.
    set (half := num / 2) in *. rewrite Hpage. unfold max_int in *.
    rewrite (wrap_in_int half) by (rewrite in_int_bounds; lia).
    rewrite (wrap_in_int (2 ^ 63 - 1 - half - half)) by (rewrite in_int_bounds; lia).
    rewrite (wrap_in_int (2 ^ 63 - 1 - half + half)) by (rewrite in_int_bounds; lia).
    rewrite (wrap_in_int (2 ^ 63 - 1 - half)) by (rewrite in_int_bounds; lia).
    rewrite (decide_False (P := _ < 1)) by lia.
    rewrite (decide_False (P := _ > 2 ^ 63 - 1)) by lia.
    rewrite (decide_False (P := _ ∧ _)) by lia.
    rewrite (decide_False (P := 2 ^ 63 - 1 - half > 2 ^ 63 - 1 - half)) by lia.
    case_decide; f_equal; lia. }
  rewrite Hw in HO. cbn [fst snd] in HO.
  unfold pages_outcome in HO.
  rewrite decide_False in HO.
  - rewrite pages_loop_never_exits in HO
      by (rewrite in_int_bounds; unfold max_int in *; lia).
    by injection HO as -> _.
  - unfold int_add, int_sub. rewrite wrap_wrap_add. unfold max_int in *.
    rewrite wrap_in_int by (rewrite in_int_bounds; lia). lia.
Qed.

End SetTotalMore.

(** ** [Paginator.New] and [NewFromURL] *)

(** Sanitising twice is sanitising once, and it stays within [int]. *)
Lemma sanitize_page_again (page : Z) :
  sanitize_page (sanitize_page page) = sanitize_page page.
Proof. unfold sanitize_page. split_decides; lia. Qed.

Lemma sanitize_page_in_int (page : Z) :
  in_int page → in_int (sanitize_page page).
Proof.
  unfold sanitize_page, in_int, min_int, max_int. split_decides; lia.
Qed.

Lemma sanitize_perPage_again (p : Paginator) (perPage : Z) :
  1 ≤ DefaultPerPage (o p) →
  (AllowAll (o p) = false → DefaultPerPage (o p) ≤ MaxPerPage (o p)) →
  (AllowAll (o p) = true → 0 ≤ perPage) →
  sanitize_perPage p (sanitize_perPage p perPage) = sanitize_perPage p perPage.
Proof.
  intros HD HM HA. unfold sanitize_perPage.
  destruct (AllowAll (o p)); [specialize (HA eq_refl) | specialize (HM eq_refl)];
    split_decides; intuition (try lia; try congruence).
Qed.

Lemma sanitize_perPage_in_int (p : Paginator) (perPage : Z) :
  in_int perPage → in_int (DefaultPerPage (o p)) → in_int (MaxPerPage (o p)) →
  in_int (sanitize_perPage p perPage).
Proof.
  unfold sanitize_perPage, in_int, min_int, max_int. split_decides; lia.
Qed.

(** X9: with [AllowAll] off and a default and a maximum of at least 1,
    whatever page and per-page value is asked for, directly or through a
    query, the set has a page of at least 1 and a per-page value, equal to
    its limit, between 1 and the larger of the default and the maximum. *)
Theorem New_bounds (p : Paginator) :
  AllowAll (o p) = false → 1 ≤ DefaultPerPage (o p) → 1 ≤ MaxPerPage (o p) →
  (∀ page perPage : Z,
     let s := Paginator_New p page perPage in
     1 ≤ Page s ∧ Limit s = PerPage s ∧
     1 ≤ PerPage s ≤ Z.max (DefaultPerPage (o p)) (MaxPerPage (o p))) ∧
  (∀ q : Values,
     let s := NewFromURL p q in
     1 ≤ Page s ∧ Limit s = PerPage s ∧
     1 ≤ PerPage s ≤ Z.max (DefaultPerPage (o p)) (MaxPerPage (o p))).
Proof.
  intros HA HD HM.
  assert (∀ page perPage : Z,
     let s := Paginator_New p page perPage in
     1 ≤ Page s ∧ Limit s = PerPage s ∧
     1 ≤ PerPage s ≤ Z.max (DefaultPerPage (o p)) (MaxPerPage (o p))) as H.
  { intros page perPage. cbn. unfold sanitize_page, sanitize_perPage.
    rewrite HA. split_decides; lia. }
  split; [done |]. intros q. apply H.
Qed.

(** X10: with a default of at least 1 (and, without [AllowAll], a maximum
    of at least 1), [Paginator.New] yields the per-page value 0, which
    stands for no limit, exactly when [AllowAll] is on and the per-page
    value asked for is negative. *)
Theorem New_unbounded_iff (p : Paginator) (page perPage : Z) :
  1 ≤ DefaultPerPage (o p) →
  (AllowAll (o p) = false → 1 ≤ MaxPerPage (o p)) →
  PerPage (Paginator_New p page perPage) = 0
  ↔ AllowAll (o p) = true ∧ perPage < 0.
Proof.
  intros HD HM. cbn. unfold sanitize_perPage.
  destruct (AllowAll (o p)); [| specialize (HM eq_refl)];
    split_decides; intuition (try lia; try congruence).
Qed.

(** X11: sanitising is idempotent where a limit is asked for, and only
    there. With a default of at least 1 that, without [AllowAll], does not
    exceed the maximum: unless [AllowAll] is on and the per-page value is
    negative, [Paginator.New] at the page and per-page value of a set it
    built yields that set again; in that case the set has the per-page
    value 0, and [Paginator.New] at 0 yields the default, not 0. *)
Theorem New_resanitize (p : Paginator) (page perPage : Z) :
  1 ≤ DefaultPerPage (o p) →
  (AllowAll (o p) = false → DefaultPerPage (o p) ≤ MaxPerPage (o p)) →
  let s := Paginator_New p page perPage in
  ((AllowAll (o p) = true → 0 ≤ perPage) →
   Paginator_New p (Page s) (PerPage s) = s) ∧
  (AllowAll (o p) = true → perPage < 0 →
   PerPage s = 0 ∧
   PerPage (Paginator_New p (Page s) (PerPage s)) = DefaultPerPage (o p)).
Proof.
  intros HD HM. cbn zeta. split.
  - intros HA. unfold Paginator_New. cbn [Page PerPage].
    by rewrite sanitize_page_again, sanitize_perPage_again.
  - intros HA Hn. cbn. unfold sanitize_perPage. rewrite HA.
    rewrite decide_True by done. rewrite decide_False by lia.
    by rewrite decide_True by lia.
Qed.

(** X12: [NewFromURL] reads the first value of the page and per-page
    parameters and nothing else: a query with other parameters added or
    changed, or with further values behind the first, gives the same set,
    and a nil query counts as an empty one. *)
Theorem NewFromURL_reads_two_values (p : Paginator)
    (m : gmap string (list string)) :
  (∀ (k : string) (vs : list string),
     k ≠ PageParam (o p) → k ≠ PerPageParam (o p) →
     NewFromURL p (Some (<[k := vs]> m)) = NewFromURL p (Some m)) ∧
  (∀ (k v : string) (vs : list string),
     m !! k = Some (v :: vs) →
     NewFromURL p (Some (<[k := [v]]> m)) = NewFromURL p (Some m)) ∧
  NewFromURL p None = NewFromURL p (Some ∅).
Proof.
  split; [| split].
  - intros k vs H1 H2. unfold NewFromURL, url.Get.
    by rewrite !lookup_insert_ne by done.
  - intros k v vs Hk.
    assert (∀ k', url.Get (Some (<[k := [v]]> m)) k' = url.Get (Some m) k') as HG.
    { intros k'. unfold url.Get. destruct (decide (k = k')) as [<- | Hne].
      - by rewrite lookup_insert_eq, Hk.
      - by rewrite lookup_insert_ne. }
    unfold NewFromURL. by rewrite !HG.
  - done.
Qed.

(** ** [strconv.Atoi] on decimal text *)

(** On a run of digits that stays within [uint64] the digit loop of
    [ParseUint] yields its value. *)
Lemma ParseUint_loop_digits (s : string) (n : Z) :
  all_digits s = true → 0 ≤ n →
  leading_value s n ≤ strconv.maxUint64 →
  strconv.ParseUint_loop s n = (leading_value s n, None).
Proof.
  revert n. induction s as [| c s IH]; intros n Hs Hn Hv; [done |].
  cbn [all_digits strconv.ParseUint_loop leading_value] in *.
  apply andb_true_iff in Hs as [Hc Hs]. rewrite Hc in *.
  apply is_digit_spec in Hc. rewrite decide_True by done.
  pose proof (leading_value_mono s (n * 10 + (strconv.byte c - 48)) ltac:(lia)) as Hm.
  rewrite ParseUint_cutoff. unfold strconv.maxUint64 in *.
  rewrite decide_False by lia. cbn zeta.
  rewrite Z.mod_small by lia.
  rewrite decide_False by lia. apply IH; [done | lia | done].
Qed.

(** On a run of digits that stays within [int] the loop of the fast path
    yields its value. *)
Lemma Atoi_loop_digits (s : string) (n : Z) :
  all_digits s = true → 0 ≤ n →
  leading_value s n ≤ max_int →
  strconv.Atoi_loop s n = Some (leading_value s n).
Proof.
  revert n. induction s as [| c s IH]; intros n Hs Hn Hv; [done |].
  cbn [all_digits strconv.Atoi_loop leading_value] in *.
  apply andb_true_iff in Hs as [Hc Hs]. rewrite Hc in *.
  apply is_digit_spec in Hc.
  pose proof (leading_value_mono s (n * 10 + (strconv.byte c - 48)) ltac:(lia)) as Hm.
  rewrite Z.mod_small by lia. rewrite decide_False by lia.
  unfold int_add, int_mul, max_int in *.
  rewrite (wrap_in_int (n * 10)) by (rewrite in_int_bounds; lia).
  rewrite wrap_in_int by (rewrite in_int_bounds; lia).
  apply IH; [done | lia | done].
Qed.

Lemma numeric_true (s : string) :
  numeric s = true →
  unsigned_part s ≠ EmptyString ∧ all_digits (unsigned_part s) = true.
Proof.
  unfold numeric. intros H. apply andb_true_iff in H as [H1 H2].
  by apply bool_decide_eq_true in H1.
Qed.

(** [Atoi] on a decimal integer: its value, brought into the range of
    [int], and no error exactly when the value is in that range. *)
Lemma Atoi_numeric (s : string) :
  numeric s = true →
  (strconv.Atoi s).1 = clamp_int (decimal_value s) ∧
  ((strconv.Atoi s).2 = None ↔ in_int (decimal_value s)).
Proof.
  intros Hnum. destruct (numeric_true s Hnum) as [Hne Hdig].
  destruct (decide (leading_value (unsigned_part s) 0 > strconv.maxUint64))
    as [Hov | Hin].
  { rewrite Atoi_overflow by done. cbn [fst snd].
    destruct s as [| c s']; [done |].
    unfold range_bound, decimal_value, clamp_int, in_int, min_int, max_int,
      strconv.maxUint64 in *.
    case_decide; (split; [lia | split; intros ?; (done || lia)]). }
  pose proof (leading_value_mono (unsigned_part s) 0 ltac:(lia)) as Hpos.
  unfold strconv.Atoi.
  destruct s as [| c s']; [done |].
  unfold decimal_value. cbn [unsigned_part] in *. unfold is_sign in *.
  destruct (decide (0 < _ < 19)) as [Hlen | Hlen].
  - (* the fast path *)
    assert (leading_value
              (if bool_decide (c = "+"%char ∨ c = "-"%char) then s' else String c s') 0
            < 10 ^ 18) as Hb.
    { pose proof (leading_value_bound
        (if bool_decide (c = "+"%char ∨ c = "-"%char) then s' else String c s')
        0 ltac:(lia)) as Hb.
      eapply Z.lt_le_trans; [apply Hb |]. rewrite Z.mul_1_l.
      apply Z.pow_le_mono_r; [lia |].
      case_bool_decide; cbn [String.length] in *; lia. }
    destruct (decide (c = "-"%char ∨ c = "+"%char)) as [Hs | Hs].
    + rewrite (bool_decide_eq_true_2 _ Hs).
      rewrite bool_decide_eq_true_2 in Hne, Hdig, Hpos, Hb, Hin |- * by tauto.
      destruct (decide (_ ∧ _ < 1)) as [[_ Hs1] | _];
        [destruct s'; [by destruct Hne | cbn [String.length] in Hs1; lia] |].
      rewrite Atoi_loop_digits by (done || unfold max_int; lia).
      cbn [fst snd]. unfold int_sub, clamp_int, in_int, min_int, max_int.
      rewrite wrap_in_int by (rewrite in_int_bounds; lia).
      case_decide; (split; [lia | split; intros ?; (done || lia)]).
    + rewrite (bool_decide_eq_false_2 _ Hs).
      rewrite bool_decide_eq_false_2 in Hne, Hdig, Hpos, Hb, Hin |- * by tauto.
      rewrite decide_False by (by intros [? _]).
      rewrite Atoi_loop_digits by (done || unfold max_int; lia).
      cbn [fst snd]. unfold clamp_int, in_int, min_int, max_int.
      split_decides; [tauto |].
      split; [lia | split; intros ?; (done || lia)].
  - (* [ParseInt] *)
    unfold strconv.ParseInt, strconv.ParseUint.
    destruct (decide (c = "+"%char ∨ c = "-"%char)) as [Hs | Hs].
    + rewrite (bool_decide_eq_true_2 _ Hs) in Hne, Hdig, Hpos, Hin |- *.
      rewrite (decide_False (P := s' = EmptyString)) by done.
      rewrite ParseUint_loop_digits by (done || lia).
      cbv beta iota.
      rewrite (decide_False (P := None = Some strconv.ErrSyntax)) by done.
      set (v := leading_value s' 0) in *.
      unfold clamp_int, in_int, min_int, max_int, strconv.maxUint64 in *.
      destruct (decide (c = "-"%char)) as [Hm | Hm].
      * rewrite (bool_decide_eq_true_2 _ Hm).
        rewrite decide_False by (by intros [? _]).
        destruct (decide (_ ∧ v > 2 ^ 63)) as [[_ Hbig] | Hsm];
          cbn [fst snd]; [split; [lia | split; intros ?; (done || lia)] |].
        assert (v ≤ 2 ^ 63) by (destruct (decide (v ≤ 2 ^ 63)); [done | exfalso; apply Hsm; split; [done | lia]]).
        destruct (decide (v = 2 ^ 63)) as [-> | Hlt].
        { split; [by vm_compute | split; intros ?; (done || lia)]. }
        rewrite (wrap_in_int v) by (rewrite in_int_bounds; lia).
        rewrite wrap_in_int by (rewrite in_int_bounds; lia).
        split; [lia | split; intros ?; (done || lia)].
      * rewrite (bool_decide_eq_false_2 _ Hm).
        destruct (decide (_ ∧ v >= 2 ^ 63)) as [[_ Hbig] | Hsm];
          cbn [fst snd]; [split; [lia | split; intros ?; (done || lia)] |].
        assert (v < 2 ^ 63) by (destruct (decide (v < 2 ^ 63)); [done | exfalso; apply Hsm; split; [done | lia]]).
        rewrite decide_False by (by intros [? _]). cbn [fst snd].
        rewrite wrap_in_int by (rewrite in_int_bounds; lia).
        split; [lia | split; intros ?; (done || lia)].
    + rewrite (bool_decide_eq_false_2 _ Hs) in Hne, Hdig, Hpos, Hin |- *.
      rewrite (decide_False (P := String c s' = EmptyString)) by done.
      rewrite ParseUint_loop_digits by (done || lia).
      cbv beta iota.
      rewrite (decide_False (P := None = Some strconv.ErrSyntax)) by done.
      set (v := leading_value (String c s') 0) in *.
      assert (c ≠ "-"%char) as Hm by tauto.
      rewrite (bool_decide_eq_false_2 _ Hm). rewrite (decide_False (P := c = "-"%char)) by done.
      unfold clamp_int, in_int, min_int, max_int, strconv.maxUint64 in *.
      destruct (decide (_ ∧ v >= 2 ^ 63)) as [[_ Hbig] | Hsm];
        cbn [fst snd]; [split; [lia | split; intros ?; (done || lia)] |].
      assert (v < 2 ^ 63) by (destruct (decide (v < 2 ^ 63)); [done | exfalso; apply Hsm; split; [done | lia]]).
      rewrite decide_False by (by intros [? _]). cbn [fst snd].
      rewrite wrap_in_int by (rewrite in_int_bounds; lia).
      split; [lia | split; intros ?; (done || lia)].
Qed.

(** *** Printing and parsing *)

Lemma pretty_N_char_digit (d : N) :
  (d < 10)%N →
  is_digit (pretty_N_char d) = true ∧
  strconv.byte (pretty_N_char d) - 48 = Z.of_N d.
Proof.
  intros Hd.
  assert (d = 0 ∨ d = 1 ∨ d = 2 ∨ d = 3 ∨ d = 4 ∨ d = 5 ∨ d = 6 ∨ d = 7
          ∨ d = 8 ∨ d = 9)%N as H by lia.
  repeat (destruct H as [-> | H]; [by vm_compute |]). subst. by vm_compute.
Qed.

(** The value of a run of digits continues the value read so far. *)
Lemma leading_value_shift (s : string) (n : Z) :
  all_digits s = true →
  leading_value s n
  = n * 10 ^ Z.of_nat (String.length s) + leading_value s 0.
Proof.
  revert n. induction s as [| c s IH]; intros n Hs.
  - cbn. lia.
  - cbn [all_digits leading_value String.length] in *.
    apply andb_true_iff in Hs as [Hc Hs]. rewrite Hc.
    rewrite (IH (n * 10 + _)), (IH (0 * 10 + _)) by done.
    rewrite Nat2Z.inj_succ, Z.pow_succ_r by lia. lia.
Qed.

(** The digits [pretty_N_go] puts in front of a run of digits. *)
Lemma pretty_N_go_value (x : N) (s : string) :
  all_digits s = true →
  all_digits (pretty_N_go x s) = true ∧
  leading_value (pretty_N_go x s) 0
  = Z.of_N x * 10 ^ Z.of_nat (String.length s) + leading_value s 0.
Proof.
  revert s. induction (N.lt_wf_0 x) as [x _ IH]; intros s Hs.
  assert (x = 0 ∨ 0 < x)%N as [-> | Hx] by lia.
  - rewrite pretty_N_go_0. split; [done | lia].
  - rewrite pretty_N_go_step by done.
    destruct (pretty_N_char_digit (x mod 10)%N) as [Hd Hv];
      [by apply N.mod_lt |].
    destruct (IH (x / 10)%N ltac:(by apply N.div_lt)
                (String (pretty_N_char (x mod 10)) s)) as [IH1 IH2].
    { cbn [all_digits]. by rewrite Hd, Hs. }
    split; [done |]. rewrite IH2.
    cbn [leading_value String.length]. rewrite Hd.
    rewrite (leading_value_shift s (0 * 10 + _)) by done.
    rewrite Hv, Nat2Z.inj_succ, Z.pow_succ_r by lia.
    pose proof (N.div_mod x 10 ltac:(done)) as Hdm.
    assert (Z.of_N x = 10 * Z.of_N (x / 10) + Z.of_N (x mod 10)) as -> by lia.
    lia.
Qed.

Lemma all_digits_unsigned (s : string) :
  all_digits s = true → unsigned_part s = s.
Proof.
  destruct s as [| c s]; [done |]. cbn [all_digits unsigned_part].
  intros H. apply andb_true_iff in H as [Hc _]. apply is_digit_spec in Hc.
  unfold is_sign. rewrite bool_decide_eq_false_2; [done |].
  intros [-> | ->]; vm_compute in Hc; destruct Hc as [H1 H2];
    by (apply H1 || apply H2).
Qed.

(** The text [%d] prints for a number is a decimal integer with that
    number as its value. *)
Lemma Sprintf_d_numeric (n : Z) :
  numeric (fmt.Sprintf_d n) = true ∧ decimal_value (fmt.Sprintf_d n) = n.
Proof.
  unfold fmt.Sprintf_d, pretty, pretty_Z.
  assert (∀ x : positive,
            all_digits (pretty x) = true ∧ leading_value (pretty x) 0 = Zpos x
            ∧ pretty x ≠ EmptyString) as Hpos.
  { intros x. unfold pretty, pretty_positive, pretty, pretty_N.
    rewrite decide_False by done.
    destruct (pretty_N_go_value (Npos x) EmptyString) as [H1 H2]; [done |].
    cbn [String.length leading_value] in H2.
    split; [done |]. split; [rewrite H2; cbn; lia |].
    intros He. rewrite He in H2. cbn in H2. lia. }
  destruct n as [| x | x].
  - by vm_compute.
  - destruct (Hpos x) as (H1 & H2 & H3).
    unfold numeric, decimal_value. rewrite all_digits_unsigned by done.
    rewrite H1, bool_decide_eq_true_2 by done. split; [done |].
    destruct (pretty x) as [| c s] eqn:E; [done |].
    rewrite decide_False; [done |].
    intros ->. cbn [all_digits] in H1. by vm_compute in H1.
  - destruct (Hpos x) as (H1 & H2 & H3).
    change ("-" +:+ pretty x) with (String "-"%char (pretty x)).
    unfold numeric, decimal_value. cbn [unsigned_part].
    change (is_sign "-"%char) with true. cbv iota.
    rewrite H1, bool_decide_eq_true_2 by done. split; [done |].
    rewrite decide_True by done. lia.
Qed.

(** [Atoi] reads back what [%d] prints for an [int]. *)
Lemma Atoi_Sprintf_d (n : Z) :
  in_int n → strconv.Atoi (fmt.Sprintf_d n) = (n, None).
Proof.
  intros Hn. destruct (Sprintf_d_numeric n) as [Hnum Hv].
  destruct (Atoi_numeric _ Hnum) as [H1 H2]. rewrite Hv in H1, H2.
  destruct (strconv.Atoi (fmt.Sprintf_d n)) as [v e]. cbn [fst snd] in *.
  f_equal; [| by apply H2].
  rewrite H1. unfold clamp_int, in_int, min_int, max_int in *. lia.
Qed.

(** ** [NewFromURL] on decimal text *)

(** X13: when the query holds a decimal integer for the page and for the
    per-page parameter, and the latter is not the [AllowAllParam] word,
    [NewFromURL] is [Paginator.New] at their values, each brought into the
    range of [int]: a value too large or too small counts as the greatest
    or the least [int]. *)
Theorem NewFromURL_numeric (p : Paginator) (q : Values) :
  let rawPage := url.Get q (PageParam (o p)) in
  let rawPer := url.Get q (PerPageParam (o p)) in
  numeric rawPage = true → numeric rawPer = true →
  rawPer ≠ AllowAllParam (o p) →
  NewFromURL p q
  = Paginator_New p (clamp_int (decimal_value rawPage))
                    (clamp_int (decimal_value rawPer)).
Proof.
  intros rawPage rawPer H1 H2 Hne. unfold NewFromURL.
  fold rawPage rawPer. rewrite decide_False by done.
  destruct (Atoi_numeric rawPage H1) as [-> _].
  by destruct (Atoi_numeric rawPer H2) as [-> _].
Qed.

(** X14: a set built by [Paginator.New] comes back from the query its
    page and per-page values print to. The two parameter names differ, the
    [AllowAllParam] word is no decimal integer, the values asked for and
    the default and maximum are [int]s, and the conditions of idempotence
    hold: a default of at least 1 that, without [AllowAll], does not
    exceed the maximum, and, with [AllowAll], a per-page value that is
    not negative. *)
Theorem NewFromURL_round_trip (p : Paginator) (page perPage : Z)
    (m : gmap string (list string)) :
  PageParam (o p) ≠ PerPageParam (o p) →
  numeric (AllowAllParam (o p)) = false →
  in_int page → in_int perPage →
  in_int (DefaultPerPage (o p)) → in_int (MaxPerPage (o p)) →
  1 ≤ DefaultPerPage (o p) →
  (AllowAll (o p) = false → DefaultPerPage (o p) ≤ MaxPerPage (o p)) →
  (AllowAll (o p) = true → 0 ≤ perPage) →
  let s := Paginator_New p page perPage in
  NewFromURL p
    (Some (url.Set_ (url.Set_ m (PageParam (o p)) (fmt.Sprintf_d (Page s)))
                    (PerPageParam (o p)) (fmt.Sprintf_d (PerPage s))))
  = s.
Proof.
  intros Hk Hall Hp Hpp HDi HMi HD HM HA s.
  unfold NewFromURL, url.Get, url.Set_.
  rewrite lookup_insert_eq, lookup_insert_ne, lookup_insert_eq by done.
  rewrite decide_False.
  2:{ intros He. destruct (Sprintf_d_numeric (PerPage s)) as [Hn _].
      rewrite He in Hn. congruence. }
  rewrite !Atoi_Sprintf_d
    by (subst s; cbn [Page PerPage Paginator_New];
        auto using sanitize_page_in_int, sanitize_perPage_in_int).
  cbn [fst]. subst s. unfold Paginator_New. cbn [Page PerPage].
  by rewrite sanitize_page_again, sanitize_perPage_again.
Qed.

(** ** [HTML]: the query it writes to and the text it writes *)

(** The text written does not depend on what the map held at the page
    parameter when [HTML] was called. *)
Lemma HTML_run_markup (s : Set_) (uri : string)
    (q0 m : gmap string (list string)) :
  same_but (PageParam (o (pg s))) q0 m →
  (HTML_run s uri (Some m)).1 = markup "pg-selected" s uri (Some q0).
Proof.
  intros Hm. unfold HTML_run, markup.
  change (default ∅ (Some m)) with m.
  pose proof (write_pages_markup s uri (Some q0) (Pages s)) as HW.
  change (default ∅ (Some q0)) with q0 in HW.
  destruct (PinFirstPage s).
  - assert (write_first s uri (EmptyString, m)
            = write_first s uri (EmptyString, q0)) as ->
      by (unfold write_first; by rewrite (Hm "1")).
    pose proof (write_first_markup s uri (Some q0)) as HF.
    change (default ∅ (Some q0)) with q0 in HF. rewrite HF.
    match goal with |- context [foldl _ (?b', ?m') _] =>
      destruct (HW b' m') as [HW1 HW2]; [by apply same_but_Set; intros v |] end.
    destruct (PinLastPage s).
    + match goal with |- context [write_last _ _ ?st] =>
        destruct st as [b m'] end.
      cbn [fst snd] in HW1, HW2.
      rewrite (write_last_markup s uri (Some q0) b m' HW2), HW1.
      rewrite !append_assoc. reflexivity.
    + rewrite HW1, !append_assoc, !append_nil_r. reflexivity.
  - match goal with |- context [foldl _ (?b', ?m') _] =>
      destruct (HW b' m') as [HW1 HW2]; [done |] end.
    destruct (PinLastPage s).
    + match goal with |- context [write_last _ _ ?st] =>
        destruct st as [b m'] end.
      cbn [fst snd] in HW1, HW2.
      rewrite (write_last_markup s uri (Some q0) b m' HW2), HW1.
      rewrite ?append_assoc. reflexivity.
    + rewrite HW1, ?append_nil_r. reflexivity.
Qed.

Lemma same_but_refl (k : string) (m : gmap string (list string)) :
  same_but k m m.
Proof. by intros v. Qed.

Lemma same_but_insert (k : string) (m : gmap string (list string))
    (vs : list string) :
  same_but k m (<[k := vs]> m).
Proof. intros v. unfold url.Set_. by rewrite insert_insert_eq. Qed.

Lemma same_but_delete (k : string) (m : gmap string (list string)) :
  same_but k m (delete k m).
Proof. intros v. unfold url.Set_. by rewrite insert_delete_eq. Qed.

(** X15: [HTML] overwrites the page parameter of the query it is given:
    whatever values the query holds for it, and whether it holds any, the
    markup is the same; a nil query counts as an empty one. *)
Theorem HTML_overwrites_page_param (s : Set_) (uri : string)
    (m : gmap string (list string)) :
  (∀ vs : list string,
     HTML s uri (Some (<[PageParam (o (pg s)) := vs]> m)) = HTML s uri (Some m)) ∧
  HTML s uri (Some (delete (PageParam (o (pg s))) m)) = HTML s uri (Some m) ∧
  HTML s uri None = HTML s uri (Some ∅).
Proof.
  unfold HTML. split; [| split].
  - intros vs.
    rewrite (HTML_run_markup s uri m (<[_ := vs]> m)) by apply same_but_insert.
    by rewrite (HTML_run_markup s uri m m) by apply same_but_refl.
  - rewrite (HTML_run_markup s uri m (delete _ m)) by apply same_but_delete.
    by rewrite (HTML_run_markup s uri m m) by apply same_but_refl.
  - done.
Qed.

Lemma append_eq_nil (a b : string) :
  a +:+ b = EmptyString ↔ a = EmptyString ∧ b = EmptyString.
Proof.
  destruct a as [| x a].
  - change (EmptyString +:+ b) with b. split; [done | by intros [_ ->]].
  - change (String x a +:+ b) with (String x (a +:+ b)).
    split; [done | by intros [? _]].
Qed.

Lemma anchor_ne (cls href text : string) : anchor cls href text ≠ EmptyString.
Proof. unfold anchor. intros H. by apply append_eq_nil in H as [H _]. Qed.

Lemma ellipsis_ne (cls : string) : ellipsis cls ≠ EmptyString.
Proof. unfold ellipsis. intros H. by apply append_eq_nil in H as [H _]. Qed.

(** X16: [HTML] yields the empty string exactly when neither page is
    pinned and [Pages] is empty, as on a set [SetTotal] was never called on
    or took the single-page exit on. *)
Theorem HTML_empty_iff (s : Set_) (uri : string) (qp : Values) :
  HTML s uri qp = EmptyString
  ↔ PinFirstPage s = false ∧ Pages s = [] ∧ PinLastPage s = false.
Proof.
  assert (HTML s uri qp = markup "pg-selected" s uri (Some (default ∅ qp))) as ->.
  { unfold HTML. destruct qp as [m |].
    - apply HTML_run_markup, same_but_refl.
    - apply (HTML_run_markup s uri ∅ ∅), same_but_refl. }
  unfold markup. rewrite !append_eq_nil.
  assert (∀ (b : bool) (x : string), x ≠ EmptyString →
            (if b then x else EmptyString) = EmptyString ↔ b = false) as Hif
    by (intros [] x Hx; split; done).
  rewrite !Hif.
  - destruct (Pages s) as [| x l]; cbn [map foldr];
      [by split; intros (? & _ & ?) |].
    split; [| by intros (_ & ? & _)].
    intros (_ & H & _). apply append_eq_nil in H as [H _].
    by apply anchor_ne in H.
  - intros H. apply append_eq_nil in H as [H _]. by apply ellipsis_ne in H.
  - intros H. apply append_eq_nil in H as [H _]. by apply anchor_ne in H.
Qed.

(** The map after the loop over the pages. *)
Lemma write_pages_map (s : Set_) (uri : string) (ps : list Z) (b : string)
    (m : gmap string (list string)) :
  (foldl (write_page s uri) (b, m) ps).2
  = match last ps with
    | Some p => url.Set_ m (PageParam (o (pg s))) (fmt.Sprintf_d p)
    | None => m
    end.
Proof.
  revert b m. induction ps as [| p ps IH]; intros b m; [done |].
  cbn [foldl]. unfold write_page at 2. cbn zeta. rewrite IH, last_cons.
  destruct (last ps); [| done].
  unfold url.Set_. by rewrite insert_insert_eq.
Qed.


Lemma HTML_run_map (s : Set_) (uri : string) (m : gmap string (list string)) :
  (HTML_run s uri (Some m)).2
  = let k := PageParam (o (pg s)) in
    let m1 := if PinFirstPage s then url.Set_ m k "1" else m in
    let m2 := match last (Pages s) with
              | Some p => url.Set_ m1 k (fmt.Sprintf_d p)
              | None => m1
              end in
    if PinLastPage s then url.Set_ m2 k (fmt.Sprintf_d (TotalPages s)) else m2.
Proof.
  unfold HTML_run. change (default ∅ (Some m)) with m. cbn zeta.
  assert (∀ st : render, (write_last s uri st).2
            = url.Set_ st.2 (PageParam (o (pg s))) (fmt.Sprintf_d (TotalPages s)))
    as HL by (intros [b q]; reflexivity).
  destruct (PinFirstPage s), (PinLastPage s); rewrite ?HL.
  - unfold write_first. rewrite write_pages_map. reflexivity.
  - unfold write_first. rewrite write_pages_map. reflexivity.
  - rewrite write_pages_map. reflexivity.
  - rewrite write_pages_map. reflexivity.
Qed.

Theorem HTML_leaves_last_page (s : Set_) (uri : string)
    (m : gmap string (list string)) :
  let m' := (HTML_run s uri (Some m)).2 in
  (∀ k : string, k ≠ PageParam (o (pg s)) → m' !! k = m !! k) ∧
  (PinFirstPage s = false ∧ Pages s = [] ∧ PinLastPage s = false → m' = m) ∧
  (¬ (PinFirstPage s = false ∧ Pages s = [] ∧ PinLastPage s = false) →
   m' !! PageParam (o (pg s))
   = Some [fmt.Sprintf_d (if PinLastPage s then TotalPages s
                          else default 1 (last (Pages s)))]).
Proof.
  cbn zeta. rewrite HTML_run_map. cbn zeta.
  set (k := PageParam (o (pg s))). unfold url.Set_.
  split; [| split].
  - intros k' Hk.
    destruct (PinFirstPage s), (PinLastPage s), (last (Pages s));
      rewrite ?lookup_insert_ne by done; reflexivity.
  - intros (-> & -> & ->). reflexivity.
  - intros Hn.
    destruct (PinLastPage s); [apply lookup_insert_eq |].
    destruct (last (Pages s)) as [p |] eqn:E; [apply lookup_insert_eq |].
    destruct (PinFirstPage s); [apply lookup_insert_eq |].
    exfalso. apply Hn. apply last_None in E. by rewrite E.
Qed.

(** X18: [Params], which [SetParams] stores, is read nowhere: [HTML]
    renders the same markup and leaves the same map, and [SetTotal] ends
    the same way with the same fields, whatever [SetParams] stored. *)
Theorem SetParams_is_not_read (indefinite : spec_float → Z) (s : Set_)
    (v : Values) :
  (∀ (uri : string) (qp : Values),
     HTML_run (SetParams s v) uri qp = HTML_run s uri qp) ∧
  (∀ t : Z,
     SetTotal indefinite (SetParams s v) t
     = ((SetTotal indefinite s t).1,
        SetParams (SetTotal indefinite s t).2 v)).
Proof.
  split; [done |].
  intros t. unfold SetTotal, generateNumbers, SetParams.
  cbn [Total PerPage Page pg set_Total set_Params set_TotalPages].
  destruct (decide (t ≤ PerPage s)); [done |].
  destruct (decide (Page s > _));
    cbn [Total PerPage Page pg set_Total set_Params set_TotalPages set_Page
         set_Offset];
    destruct (window _ _ _) as [first last];
    destruct (decide (first ≠ 1)), (decide (last ≠ _));
    destruct (decide (_ < 0)); try done;
    by destruct (pages_loop _ _ _ _).
Qed.

Lemma all_safe_app (a b : string) :
  all_safe (a +:+ b) = all_safe a && all_safe b.
Proof.
  induction a as [| x a IH]; [done |].
  change (String x a +:+ b) with (String x (a +:+ b)).
  cbn [all_safe]. by rewrite IH, andb_assoc.
Qed.

Lemma upperhex_safe (n : Z) : 0 ≤ n < 16 → url_safe (url.upperhex n) = true.
Proof.
  intros Hn.
  assert (n = 0 ∨ n = 1 ∨ n = 2 ∨ n = 3 ∨ n = 4 ∨ n = 5 ∨ n = 6 ∨ n = 7 ∨
          n = 8 ∨ n = 9 ∨ n = 10 ∨ n = 11 ∨ n = 12 ∨ n = 13 ∨ n = 14 ∨
          n = 15) as H by lia.
  repeat (destruct H as [-> | H]; [by vm_compute |]). subst. by vm_compute.
Qed.

Lemma QueryEscape_safe (s : string) : all_safe (url.QueryEscape s) = true.
Proof.
  induction s as [| c s IH]; [done |].
  cbn [url.QueryEscape].
  destruct (decide (c = " "%char)) as [-> | Hsp]; [by cbn [all_safe]; rewrite IH |].
  destruct (url.shouldEscape c) eqn:E.
  - cbn [all_safe]. rewrite IH, !upperhex_safe; [done | |].
    + pose proof (byte_range c). rewrite Z.land_ones with (n := 4) by lia.
      apply Z.mod_pos_bound. lia.
    + pose proof (byte_range c). rewrite Z.shiftr_div_pow2 by lia.
      split; [apply Z.div_pos; lia | apply Z.div_lt_upper_bound; lia].
  - cbn [all_safe]. unfold url_safe at 1. by rewrite E, IH.
Qed.

Lemma Encode_key_safe (k : string) (vs : list string) (buf : string) :
  all_safe buf = true → all_safe (url.Encode_key k vs buf) = true.
Proof.
  unfold url.Encode_key. revert buf.
  induction vs as [| v vs IH]; intros buf Hb; [done |].
  cbn [foldl]. apply IH.
  rewrite !all_safe_app, !QueryEscape_safe.
  destruct (decide (buf = EmptyString)); rewrite ?all_safe_app, Hb; done.
Qed.

Lemma Encode_safe (m : gmap string (list string)) :
  all_safe (url.Encode m) = true.
Proof.
  unfold url.Encode.
  assert (all_safe EmptyString = true) as Hb by done. revert Hb.
  generalize EmptyString. induction (url.sorted_keys m) as [| k ks IH];
    intros buf Hb; [done |].
  cbn [foldl]. by apply IH, Encode_key_safe.
Qed.

(** X19: the address of every anchor is the uri as given, a question mark
    and an encoded query in which every character is a letter, a digit or
    one of [-_.~%+=&]: no parameter name or value can put a quote, an
    angle bracket or a blank into the markup. The uri itself is not
    escaped. *)
Theorem HTML_href_is_escaped (s : Set_) (uri : string) (qp : Values)
    (p : string) :
  (∃ e : string, page_url s uri qp p = uri +:+ "?" +:+ e ∧ all_safe e = true) ∧
  (∀ c : ascii, url_safe c = true →
     c ≠ "034"%char ∧ c ≠ "'"%char ∧ c ≠ "<"%char ∧ c ≠ ">"%char ∧
     c ≠ " "%char).
Proof.
  split.
  - eexists. split; [reflexivity | apply Encode_safe].
  - intros c Hc. repeat split; intros ->; by vm_compute in Hc.
Qed.

(** ** The further properties at concrete requests *)

Lemma SetTotal_offset_in_range_witness :
  0 ≤ Offset (SetTotal amd64 (Paginator_New (New Default) 9 10) 25).2 < 25.
Proof.
  apply (SetTotal_offset_in_range amd64 (Paginator_New (New Default) 9 10) 25);
    by vm_compute.
Defined.
